(** * world-map: the game-progression state machine of [useGameState.ts]

    A shallow embedding of the session state of the "click the country" game
    ([src/useGameState.ts], with the history list of [src/App.tsx]) and the
    properties of its transitions, followed by the rest of the hook (the
    catalog derived from the loaded data, the current target, the reset when
    the data arrives) and by what the header, the sidebar and the map derive
    from the state.

    Modelling conventions.
    - [Set<string>] is a [gset string]: the source only uses [has], [add] and
      [size], so insertion order is irrelevant.
    - [string[]] is a [list string]; [a[i]] is [a !! i], with [None] for the
      JavaScript [undefined] of an out-of-range read.
    - [number] counters are [nat] (they stay far below 2^53); the clock value
      returned by [Date.now()] is an integer [Z] supplied by the environment
      as an explicit argument of the click transition.
    - [Math.random()] is an explicit source of draws in the interval [0,1),
      passed to the shuffle and indexed by the number of calls made so far.
    - The [setState (prev => ...)] updaters are the pure functions
      [GameState -> GameState] they contain.  None of the JavaScript
      operations they use ([Set.has], [Set.add], array reads, object spread)
      can throw, so the embedded transitions are total functions. *)

From stdpp Require Import gmap strings list.
From Stdlib Require Import ZArith Lia.

Set Warnings "-clear-no-such-hyp".

Local Open Scope Z_scope.
Local Open Scope nat_scope.

(** * The model *)

(** ** The random source *)

Module Random.

(** One result of [Math.random()]: the fraction
    [num / (num + gap + 1)], which ranges over exactly the rationals of the
    half-open interval [0,1). *)
Record draw : Type := Draw { num : nat; gap : nat }.

Definition den (r : draw) : nat := num r + gap r + 1.

(** [Math.floor(r * n)] *)
Definition floor_mul (r : draw) (n : nat) : nat := (num r * n) / den r.

(** The constant source whose every draw is 0. *)
Definition zero : nat -> draw := fun _ => Draw 0 0.

(** A source that alternates between 1/2 and 2/3. *)
Definition mixed : nat -> draw :=
  fun n => if Nat.even n then Draw 1 0 else Draw 2 0.

End Random.

(** ** [shuffleArray] *)

Section Shuffle.
Context {T : Type}.

(** [[a[i], a[j]] = [a[j], a[i]]]: the right-hand side reads [a[j]] and
    [a[i]], then [a[i]] and [a[j]] are assigned in that order.  Inside the
    shuffle both indices are always in range (lemma [shuffle_index_in_range]
    below), so the last branch is never taken there. *)
Definition swap (a : list T) (i j : nat) : list T :=
  match a !! j, a !! i with
  | Some aj, Some ai => <[j:=ai]> (<[i:=aj]> a)
  | _, _ => a
  end.

(** The loop [for (let i = shuffled.length - 1; i > 0; i--)], entered with
    loop variable [i] after [calls] calls of [Math.random()]. *)
Fixpoint shuffle_loop (random : nat -> Random.draw) (calls i : nat)
    (shuffled : list T) : list T :=
  match i with
  | 0 => shuffled
  | S i' =>
      let j := Random.floor_mul (random calls) (i + 1) in
      shuffle_loop random (S calls) i' (swap shuffled i j)
  end.

Definition shuffleArray (random : nat -> Random.draw) (array : list T)
    : list T :=
  shuffle_loop random 0 (length array - 1) array.

End Shuffle.

(** ** The session state *)

Inductive GameStatus : Type := playing | finished.

#[global] Instance GameStatus_eq_dec : EqDecision GameStatus.
Proof. solve_decision. Defined.

Record GameState : Type := mkGameState {
  completed : gset string;
  skipped : gset string;
  wrongClicks : nat;
  currentTargetId : string;
  status : GameStatus;
  lastWrongId : option string;
  lastWrongTimestamp : Z;
  countryOrder : list string;
  currentIndex : nat;
}.

(** [shuffled[0] || ''] : the first id, or the empty string when there is
    none (an empty first id is falsy and yields the empty string as well). *)
Definition first_or_empty (shuffled : list string) : string :=
  match shuffled !! 0 with
  | Some x => x
  | None => ""
  end.

Definition createInitialState (random : nat -> Random.draw)
    (countryIds : list string) : GameState :=
  let shuffled := shuffleArray random countryIds in
  {| completed := ∅;
     skipped := ∅;
     wrongClicks := 0;
     currentTargetId := first_or_empty shuffled;
     status := playing;
     lastWrongId := None;
     lastWrongTimestamp := 0%Z;
     countryOrder := shuffled;
     currentIndex := 0 |}.

(** [isFinished ? '' : prev.countryOrder[nextIndex]]; when [isFinished] is
    false the index is in range, so the read is defined. *)
Definition next_target (isFinished : bool) (order : list string)
    (nextIndex : nat) : string :=
  if isFinished then ""
  else match order !! nextIndex with
       | Some x => x
       | None => ""
       end.

Definition status_of (isFinished : bool) : GameStatus :=
  if isFinished then finished else playing.

(** The updater of [handleCountryClick]; [now] is the value of [Date.now()]
    at the click. *)
Definition handleCountryClick (now : Z) (countryId : string)
    (prev : GameState) : GameState :=
  if decide (status prev = finished) then prev
  else if decide (countryId ∈ completed prev) then prev
  else if decide (countryId = currentTargetId prev) then
    let newCompleted := {[countryId]} ∪ completed prev in
    let nextIndex := currentIndex prev + 1 in
    let isFinished := length (countryOrder prev) <=? nextIndex in
    {| completed := newCompleted;
       skipped := skipped prev;
       wrongClicks := wrongClicks prev;
       currentTargetId := next_target isFinished (countryOrder prev) nextIndex;
       status := status_of isFinished;
       lastWrongId := None;
       lastWrongTimestamp := lastWrongTimestamp prev;
       countryOrder := countryOrder prev;
       currentIndex := nextIndex |}
  else
    {| completed := completed prev;
       skipped := skipped prev;
       wrongClicks := wrongClicks prev + 1;
       currentTargetId := currentTargetId prev;
       status := status prev;
       lastWrongId := Some countryId;
       lastWrongTimestamp := now;
       countryOrder := countryOrder prev;
       currentIndex := currentIndex prev |}.

(** The updater of [skipCountry]. *)
Definition skipCountry (prev : GameState) : GameState :=
  if decide (status prev = finished) then prev
  else
    let newSkipped := {[currentTargetId prev]} ∪ skipped prev in
    let nextIndex := currentIndex prev + 1 in
    let isFinished := length (countryOrder prev) <=? nextIndex in
    {| completed := completed prev;
       skipped := newSkipped;
       wrongClicks := wrongClicks prev;
       currentTargetId := next_target isFinished (countryOrder prev) nextIndex;
       status := status_of isFinished;
       lastWrongId := None;
       lastWrongTimestamp := lastWrongTimestamp prev;
       countryOrder := countryOrder prev;
       currentIndex := nextIndex |}.

(** [resetGame]: [setState(createInitialState(countryIds))]. *)
Definition resetGame (random : nat -> Random.draw) (countryIds : list string)
    : GameState :=
  createInitialState random countryIds.

(** ** The catalog and the history list of [App.tsx] *)

Record Country : Type := mkCountry { id : string; name : string }.

(** [countryMap]: [map.set(country.id, country)] for each country in turn. *)
Definition countryMap (countries : list Country) : gmap string Country :=
  foldl (fun m country => <[id country := country]> m) ∅ countries.

Definition countryIds (countries : list Country) : list string :=
  id <$> countries.

Definition getCountryById (countries : list Country) (i : string)
    : option Country :=
  countryMap countries !! i.

Record HistoryEntry : Type := mkHistoryEntry {
  entry_id : string;
  entry_name : string;
  wasSkipped : bool;
}.

(** [completedCountries] of [App.tsx]: for each [i < currentIndex], the
    country of [countryOrder[i]], when the catalog knows it. *)
Definition completedCountries (lookup : string -> option Country)
    (game : GameState) : list HistoryEntry :=
  omap (fun i =>
          match countryOrder game !! i with
          | Some x =>
              match lookup x with
              | Some country =>
                  Some {| entry_id := id country;
                          entry_name := name country;
                          wasSkipped := bool_decide (x ∈ skipped game) |}
              | None => None
              end
          | None => None
          end)
       (seq 0 (currentIndex game)).

(** ** Runs of the state machine *)

Inductive Action : Type :=
| Click (now : Z) (countryId : string)
| SkipTarget.

Definition step (s : GameState) (a : Action) : GameState :=
  match a with
  | Click now countryId => handleCountryClick now countryId s
  | SkipTarget => skipCountry s
  end.

Definition run (actions : list Action) (s : GameState) : GameState :=
  foldl step s actions.

(** The states a session over the ids [ids] can be in: an initial state for
    some outcome of the random source (this is also what [resetGame] yields),
    followed by any number of clicks and skips. *)
Inductive reachable (ids : list string) : GameState -> Prop :=
| reach_init random : reachable ids (createInitialState random ids)
| reach_click s now countryId :
    reachable ids s -> reachable ids (handleCountryClick now countryId s)
| reach_skip s :
    reachable ids s -> reachable ids (skipCountry s).

(** * Definitions used to state the properties *)

(** ** The outcomes of the transitions *)

(** The wrong-click outcome of [handleCountryClick]. *)
Definition wrong_click (now : Z) (countryId : string) (prev : GameState)
    : GameState :=
  {| completed := completed prev;
     skipped := skipped prev;
     wrongClicks := wrongClicks prev + 1;
     currentTargetId := currentTargetId prev;
     status := status prev;
     lastWrongId := Some countryId;
     lastWrongTimestamp := now;
     countryOrder := countryOrder prev;
     currentIndex := currentIndex prev |}.

(** The correct-click outcome of [handleCountryClick]. *)
Definition correct_click (countryId : string) (prev : GameState) : GameState :=
  let nextIndex := currentIndex prev + 1 in
  let isFinished := length (countryOrder prev) <=? nextIndex in
  {| completed := {[countryId]} ∪ completed prev;
     skipped := skipped prev;
     wrongClicks := wrongClicks prev;
     currentTargetId := next_target isFinished (countryOrder prev) nextIndex;
     status := status_of isFinished;
     lastWrongId := None;
     lastWrongTimestamp := lastWrongTimestamp prev;
     countryOrder := countryOrder prev;
     currentIndex := nextIndex |}.

(** The outcome of [skipCountry] on a state that is not finished. *)
Definition skip_target (prev : GameState) : GameState :=
  let nextIndex := currentIndex prev + 1 in
  let isFinished := length (countryOrder prev) <=? nextIndex in
  {| completed := completed prev;
     skipped := {[currentTargetId prev]} ∪ skipped prev;
     wrongClicks := wrongClicks prev;
     currentTargetId := next_target isFinished (countryOrder prev) nextIndex;
     status := status_of isFinished;
     lastWrongId := None;
     lastWrongTimestamp := lastWrongTimestamp prev;
     countryOrder := countryOrder prev;
     currentIndex := nextIndex |}.

(** The entry that [completedCountries] makes of position [i]. *)
Definition history_entry (lookup : string -> option Country)
    (game : GameState) (i : nat) : option HistoryEntry :=
  match countryOrder game !! i with
  | Some x =>
      match lookup x with
      | Some country =>
          Some {| entry_id := id country;
                  entry_name := name country;
                  wasSkipped := bool_decide (x ∈ skipped game) |}
      | None => None
      end
  | None => None
  end.

(** ** Invariants used in the proofs *)

(** The play order is a shuffle of the ids, a playing state has its target at
    the cursor, a finished one has its cursor at the end, and nothing but ids
    of the list has been completed. *)
Record coherent (ids : list string) (s : GameState) : Prop := {
  coh_order : countryOrder s ≡ₚ ids;
  coh_playing :
    status s = playing ->
    countryOrder s !! currentIndex s = Some (currentTargetId s);
  coh_finished :
    status s = finished -> currentIndex s = length (countryOrder s);
  coh_completed : forall x, x ∈ completed s -> x ∈ ids;
}.

(** What has been completed or skipped is what lies before the cursor. *)
Record passed_prefix (s : GameState) : Prop := {
  pp_union :
    completed s ∪ skipped s =
    list_to_set (take (currentIndex s) (countryOrder s));
  pp_disjoint : completed s ## skipped s;
  pp_size : size (completed s) + size (skipped s) = currentIndex s;
}.

(** With no ids the play order is empty; the state is either the initial one
    up to wrong clicks, or it was finished by the first skip or by a click on
    the empty id. *)
Definition empty_session (s : GameState) : Prop :=
  countryOrder s = [] /\
  ((status s = playing /\ currentIndex s = 0 /\ completed s = ∅ /\
    skipped s = ∅ /\ currentTargetId s = "") \/
   (status s = finished /\ currentIndex s = 1 /\
    size (completed s) + size (skipped s) = 1)).

(** ** Concrete sessions used as examples *)

(** The session before any catalog is loaded. *)
Definition empty_start : GameState := createInitialState Random.zero [].

(** A two-country session; this source shuffles ["4"; "8"] to ["8"; "4"]. *)
Definition two_start : GameState :=
  createInitialState Random.zero ["4"; "8"].

(** A state in which "4" was just clicked wrongly at time 1000. *)
Definition two_after_wrong : GameState :=
  handleCountryClick 1000 "4" two_start.

(** A second wrong click on "4", at time 1500. *)
Definition two_wrong_again : GameState :=
  handleCountryClick 1500 "4" two_after_wrong.

(** A skip right after the wrong click. *)
Definition two_after_skip : GameState := skipCountry two_after_wrong.

(** The two-country session finished by two correct clicks. *)
Definition two_finished : GameState :=
  handleCountryClick 9 "4" (handleCountryClick 8 "8" two_start).

(** The two-country session after a correct click on its first target: still
    playing, with "8" completed and "4" as target. *)
Definition two_after_correct : GameState :=
  handleCountryClick 7 "8" two_start.

(** The two-country session ended by a correct click and a skip. *)
Definition two_skipped_end : GameState :=
  skipCountry (handleCountryClick 7 "8" two_start).

(** A four-country session with a source that does move ids. *)
Definition four_start : GameState :=
  createInitialState Random.mixed ["a"; "b"; "c"; "d"].

(** A session over a list that repeats an id, skipped twice. *)
Definition twice_skipped : GameState :=
  skipCountry (skipCountry (createInitialState Random.zero ["a"; "a"])).

(** The session over no ids after a skip. *)
Definition empty_skipped : GameState := skipCountry empty_start.

(** The catalog of the two-country session. *)
Definition two_countries : list Country :=
  [mkCountry "4" "Alpha"; mkCountry "8" "Beta"].

(** ** The claims that do not hold, as they are stated *)

(** C1, as stated: with an empty list of region ids the initial state is
    finished and has an empty play order. *)
Definition initialize_empty_claim (random : nat -> Random.draw) : Prop :=
  status (createInitialState random []) = finished /\
  countryOrder (createInitialState random []) = [].

(** C5, as stated, at the state [s], the clock value [now] and the clicked
    id [clickedId]. *)
Definition wrong_click_claim (s : GameState) (now : Z) (clickedId : string)
    : Prop :=
  status s = playing ->
  clickedId ∉ completed s ->
  countryOrder s !! currentIndex s ≠ Some clickedId ->
  let s' := handleCountryClick now clickedId s in
  wrongClicks s' = wrongClicks s + 1 /\
  lastWrongId s' = Some clickedId /\
  (lastWrongTimestamp s <= lastWrongTimestamp s')%Z /\
  currentIndex s' = currentIndex s /\
  completed s' = completed s /\
  skipped s' = skipped s /\
  status s' = status s.

(** C6, as stated, at the state [s]. *)
Definition skip_claim (s : GameState) : Prop :=
  status s = playing ->
  exists target,
    countryOrder s !! currentIndex s = Some target /\
    let s' := skipCountry s in
    skipped s' = {[target]} ∪ skipped s /\
    currentIndex s' = currentIndex s + 1 /\
    lastWrongId s' = None /\
    (status s' = finished <-> currentIndex s' = length (countryOrder s')).

(** The last-wrong marker is cleared: no id, and the time back at its initial
    value 0, which the map component reads as absent. *)
Definition last_wrong_cleared (s : GameState) : Prop :=
  lastWrongId s = None /\ lastWrongTimestamp s = 0%Z.

(** C9, as stated, for a session over [ids]: in every reachable state a click
    on an id outside the catalog performs the wrong-click transition. *)
Definition unknown_id_claim (ids : list string) (s : GameState) (now : Z)
    (clickedId : string) : Prop :=
  reachable ids s -> clickedId ∉ ids ->
  handleCountryClick now clickedId s = wrong_click now clickedId s.

(** * The rest of the hook and what the components derive from it *)

(** ** The catalog as loaded: [CountriesData] *)

(** [properties] of a feature. *)
Record FeatureProperties : Type := mkFeatureProperties {
  properties_name : string;
  properties_id : string;
}.

(** A [CountryFeature]; its [geometry] is only drawn, so its type [G] is
    left open. *)
Record CountryFeature (G : Type) : Type := mkCountryFeature {
  feature_id : string;
  properties : FeatureProperties;
  geometry : G;
}.
Arguments mkCountryFeature {G}.
Arguments feature_id {G}.
Arguments properties {G}.
Arguments geometry {G}.

Record CountriesData (G : Type) : Type := mkCountriesData {
  features : list (CountryFeature G);
}.
Arguments mkCountriesData {G}.
Arguments features {G}.

(** [countries] of [useGameState]: no country while the data is [null]. *)
Definition countries {G : Type} (countriesData : option (CountriesData G))
    : list Country :=
  match countriesData with
  | None => []
  | Some data =>
      (fun feature =>
         {| id := feature_id feature;
            name := properties_name (properties feature) |})
        <$> features data
  end.

(** [currentTarget]: [countryMap.get(state.currentTargetId)]. *)
Definition currentTarget (catalog : list Country) (state : GameState)
    : option Country :=
  countryMap catalog !! currentTargetId state.

(** The body of the "reset game when countries change" memo: the state that
    the hook holds after it ran. *)
Definition resetOnLoad (random : nat -> Random.draw) (ids : list string)
    (state : GameState) : GameState :=
  if (0 <? length ids) && (length (countryOrder state) =? 0)
  then createInitialState random ids
  else state.

(** ** What [App.tsx] hands to the header and the sidebar *)

(** [completedCount={game.completed.size + game.skipped.size}] *)
Definition completedCount (game : GameState) : nat :=
  size (completed game) + size (skipped game).

(** [totalCount={game.countries.length}] *)
Definition totalCount (catalog : list Country) : nat := length catalog.

(** [skippedCount={game.skipped.size}] *)
Definition skippedCount (game : GameState) : nat := size (skipped game).

(** The test [wrongClicks === 0 && skippedCount === 0] under which the
    sidebar shows the perfect score. *)
Definition perfectScore (wrongClicks skippedCount : nat) : bool :=
  (wrongClicks =? 0) && (skippedCount =? 0).

(** ** The style of a country on the map *)

(** [className] in [countryPaths] of the map component. *)
Definition className (completed skipped : gset string)
    (animatingWrongId : option string) (featureId : string) : string :=
  let isCompleted := bool_decide (featureId ∈ completed) in
  let isSkipped := bool_decide (featureId ∈ skipped) in
  let isWrongAnimating := bool_decide (animatingWrongId = Some featureId) in
  "country" +:+
  (if isCompleted then " country--completed"
   else if isSkipped then " country--skipped"
   else if isWrongAnimating then " country--wrong"
   else "").

(** ** Runs made of one kind of action *)

(** Clicks, one after the other, on the ids of a list. *)
Definition clicks (now : Z) (ids : list string) : list Action :=
  Click now <$> ids.

(** [n] skips in a row. *)
Definition skips (n : nat) : list Action := replicate n SkipTarget.

Definition is_click (a : Action) : bool :=
  match a with
  | Click _ _ => true
  | SkipTarget => false
  end.

(** The number of clicks among some actions. *)
Definition count_clicks (actions : list Action) : nat :=
  length (List.filter is_click actions).

(** * Properties *)

(** ** The shuffle is a permutation *)

Example shuffle_ex1 :
  shuffleArray Random.mixed ["a"; "b"; "c"; "d"] = ["a"; "b"; "d"; "c"].
Proof. vm_compute. reflexivity. Qed.

Lemma floor_mul_lt (r : Random.draw) (n : nat) :
  0 < n -> Random.floor_mul r n < n.
Proof.
  intros Hn. unfold Random.floor_mul, Random.den.
  apply Nat.Div0.div_lt_upper_bound. nia.
Qed.

(** The index drawn at loop variable [i] is one of [0..i]. *)
Lemma shuffle_index_in_range (r : Random.draw) (i : nat) :
  Random.floor_mul r (i + 1) <= i.
Proof.
  pose proof (floor_mul_lt r (i + 1)). lia.
Qed.

Section ShuffleFacts.
Context {T : Type}.
Implicit Types (a : list T) (x y : T) (random : nat -> Random.draw).

Lemma insert_Permutation a i x y :
  a !! i = Some x -> <[i:=y]> a ≡ₚ y :: delete i a.
Proof.
  revert i. induction a as [|z a IH]; intros [|i] Hi; simplify_eq/=.
  - done.
  - rewrite (IH i Hi). apply perm_swap.
Qed.

Lemma swap_defined a i j ai aj :
  a !! i = Some ai -> a !! j = Some aj ->
  swap a i j = <[j:=ai]> (<[i:=aj]> a).
Proof. intros Hi Hj. unfold swap. by rewrite Hi, Hj. Qed.

Lemma swap_Permutation a i j : swap a i j ≡ₚ a.
Proof.
  unfold swap.
  destruct (a !! j) as [aj|] eqn:Hj; [|done].
  destruct (a !! i) as [ai|] eqn:Hi; [|done].
  revert i j Hi Hj.
  induction a as [|z a IH]; intros [|i] [|j] Hi Hj; simplify_eq/=.
  - done.
  - rewrite (insert_Permutation a j aj ai Hj).
    rewrite (delete_Permutation a j aj Hj) at 2. apply perm_swap.
  - rewrite (insert_Permutation a i ai aj Hi).
    rewrite (delete_Permutation a i ai Hi) at 2. apply perm_swap.
  - by rewrite (IH i j Hi Hj).
Qed.

Lemma shuffle_loop_Permutation random calls i a :
  shuffle_loop random calls i a ≡ₚ a.
Proof.
  revert calls a. induction i as [|i IH]; intros calls a; simpl; [done|].
  rewrite IH. apply swap_Permutation.
Qed.

Lemma shuffleArray_Permutation random a : shuffleArray random a ≡ₚ a.
Proof. apply shuffle_loop_Permutation. Qed.

Lemma shuffleArray_length random a :
  length (shuffleArray random a) = length a.
Proof. apply Permutation_length, shuffleArray_Permutation. Qed.

Lemma shuffleArray_nil random : shuffleArray random (@nil T) = [].
Proof. reflexivity. Qed.

(** Every swap of the loop finds both of its indices inside the array. *)
Lemma shuffle_loop_swap_in_range random calls i a :
  i < length a ->
  exists ai aj,
    a !! i = Some ai /\
    a !! Random.floor_mul (random calls) (i + 1) = Some aj.
Proof.
  intros Hi.
  pose proof (shuffle_index_in_range (random calls) i) as Hj.
  destruct (lookup_lt_is_Some_2 a i Hi) as [ai Hai].
  destruct (lookup_lt_is_Some_2 a (Random.floor_mul (random calls) (i + 1)))
    as [aj Haj]; [lia|].
  eauto.
Qed.

End ShuffleFacts.

(** ** The cases of the two transitions *)

Lemma status_cases (s : GameState) : status s = playing \/ status s = finished.
Proof. destruct (status s); auto. Qed.

Lemma click_finished now countryId s :
  status s = finished -> handleCountryClick now countryId s = s.
Proof. intros H. unfold handleCountryClick. by rewrite decide_True. Qed.

Lemma click_completed now countryId s :
  countryId ∈ completed s -> handleCountryClick now countryId s = s.
Proof.
  intros H. unfold handleCountryClick.
  destruct (decide (status s = finished)); [done|]. by rewrite decide_True.
Qed.

Lemma click_correct now countryId s :
  status s = playing -> countryId ∉ completed s ->
  countryId = currentTargetId s ->
  handleCountryClick now countryId s = correct_click countryId s.
Proof.
  intros Hp Hc Ht. unfold handleCountryClick.
  rewrite decide_False by congruence.
  rewrite decide_False by done. by rewrite decide_True.
Qed.

Lemma click_wrong now countryId s :
  status s = playing -> countryId ∉ completed s ->
  countryId ≠ currentTargetId s ->
  handleCountryClick now countryId s = wrong_click now countryId s.
Proof.
  intros Hp Hc Ht. unfold handleCountryClick.
  rewrite decide_False by congruence.
  rewrite decide_False by done. by rewrite decide_False.
Qed.

Lemma skip_finished s : status s = finished -> skipCountry s = s.
Proof. intros H. unfold skipCountry. by rewrite decide_True. Qed.

Lemma skip_playing s : status s = playing -> skipCountry s = skip_target s.
Proof.
  intros H. unfold skipCountry. by rewrite decide_False by congruence.
Qed.

(** A property kept by the three possible outcomes of a click and by the two
    of a skip holds in every reachable state. *)
Lemma reachable_ind_cases (ids : list string) (P : GameState -> Prop) :
  (forall random, P (createInitialState random ids)) ->
  (forall s countryId,
      P s -> status s = playing -> countryId ∉ completed s ->
      countryId = currentTargetId s -> P (correct_click countryId s)) ->
  (forall s now countryId,
      P s -> status s = playing -> P (wrong_click now countryId s)) ->
  (forall s, P s -> status s = playing -> P (skip_target s)) ->
  forall s, reachable ids s -> P s.
Proof.
  intros Hinit Hcorrect Hwrong Hskip s Hs.
  induction Hs as [random|s now countryId _ IH|s _ IH].
  - apply Hinit.
  - destruct (status_cases s) as [Hp|Hf]; [|by rewrite click_finished].
    destruct (decide (countryId ∈ completed s)) as [Hc|Hc];
      [by rewrite click_completed|].
    destruct (decide (countryId = currentTargetId s)) as [Ht|Ht].
    + rewrite click_correct by done. by apply Hcorrect.
    + rewrite click_wrong by done. by apply Hwrong.
  - destruct (status_cases s) as [Hp|Hf]; [|by rewrite skip_finished].
    rewrite skip_playing by done. by apply Hskip.
Qed.

Lemma status_of_finished b : status_of b = finished <-> b = true.
Proof. destruct b; simpl; split; congruence. Qed.

Lemma status_of_playing b : status_of b = playing <-> b = false.
Proof. destruct b; simpl; split; congruence. Qed.

(** ** Sessions over a non-empty id list *)

Lemma coherent_init ids random :
  ids ≠ [] -> coherent ids (createInitialState random ids).
Proof.
  intros Hne. split; simpl.
  - apply shuffleArray_Permutation.
  - intros _. unfold first_or_empty.
    destruct (shuffleArray random ids) as [|x l] eqn:E; [|done].
    apply (f_equal length) in E. rewrite shuffleArray_length in E.
    by destruct ids.
  - done.
  - set_solver.
Qed.

(** Moving the cursor of a coherent playing state one step on. *)
Lemma coherent_advance ids s s' :
  coherent ids s -> status s = playing ->
  countryOrder s' = countryOrder s ->
  currentIndex s' = currentIndex s + 1 ->
  status s' =
    status_of (length (countryOrder s) <=? currentIndex s + 1) ->
  currentTargetId s' =
    next_target (length (countryOrder s) <=? currentIndex s + 1)
      (countryOrder s) (currentIndex s + 1) ->
  (forall x, x ∈ completed s' -> x ∈ completed s \/ x = currentTargetId s) ->
  coherent ids s'.
Proof.
  intros [Ho Hp Hf Hc] Hplay Eo Ei Es Et Hcs.
  specialize (Hp Hplay). apply lookup_lt_Some in Hp as Hlt.
  split.
  - rewrite Eo. exact Ho.
  - rewrite Es, Et, Eo, Ei. intros Hb. apply status_of_playing in Hb.
    rewrite Hb. simpl. apply Nat.leb_gt in Hb.
    by destruct (lookup_lt_is_Some_2 (countryOrder s) _ Hb) as [x ->].
  - rewrite Es, Eo, Ei. intros Hb. apply status_of_finished in Hb.
    apply Nat.leb_le in Hb. lia.
  - intros x Hx. destruct (Hcs x Hx) as [?| ->]; [by apply Hc|].
    rewrite <- Ho. by eapply list_elem_of_lookup_2.
Qed.

Lemma reachable_coherent ids s :
  ids ≠ [] -> reachable ids s -> coherent ids s.
Proof.
  intros Hne. revert s. apply reachable_ind_cases.
  - intros random. by apply coherent_init.
  - intros s countryId IH Hp _ ->.
    eapply coherent_advance; try done. simpl.
    intros x [->%elem_of_singleton|?]%elem_of_union; auto.
  - intros s now countryId [Ho Hp Hf Hc] Hplay. by split.
  - intros s IH Hp. eapply coherent_advance; try done. simpl. auto.
Qed.

(** ** The passed prefix of the play order *)

(** In a duplicate-free order the id at the cursor is not in the prefix before
    it. *)
Lemma target_not_passed (order : list string) (i : nat) (x : string) :
  NoDup order -> order !! i = Some x -> x ∉ take i order.
Proof.
  intros Hnd Hi Hin. apply list_elem_of_lookup in Hin as [j Hj].
  apply lookup_take_Some in Hj as [Hj Hlt].
  pose proof (NoDup_lookup _ _ _ _ Hnd Hi Hj). lia.
Qed.

Lemma size_add_fresh (x : string) (X : gset string) :
  x ∉ X -> size ({[x]} ∪ X) = S (size X).
Proof.
  intros Hx. rewrite size_union by set_solver. by rewrite size_singleton.
Qed.

Lemma take_next (order : list string) (i : nat) (x : string) :
  order !! i = Some x ->
  list_to_set (C := gset string) (take (i + 1) order) =
  {[x]} ∪ list_to_set (take i order).
Proof.
  intros Hi. rewrite Nat.add_1_r, (take_S_r _ _ _ Hi).
  rewrite list_to_set_app_L. simpl.
  rewrite union_empty_r_L. apply union_comm_L.
Qed.

Lemma passed_prefix_init random ids :
  passed_prefix (createInitialState random ids).
Proof.
  split; simpl.
  - by rewrite union_empty_l_L.
  - set_solver.
  - done.
Qed.

Lemma passed_prefix_correct ids s :
  NoDup ids -> coherent ids s -> passed_prefix s -> status s = playing ->
  passed_prefix (correct_click (currentTargetId s) s).
Proof.
  intros Hnd [Ho Hp _ _] [Hu Hd Hs] Hplay. specialize (Hp Hplay).
  assert (NoDup (countryOrder s)) as Hnd' by by rewrite Ho.
  pose proof (target_not_passed _ _ _ Hnd' Hp) as Hfresh.
  assert (currentTargetId s ∉ completed s ∪ skipped s) as Hnew.
  { rewrite Hu. by rewrite elem_of_list_to_set. }
  split; simpl.
  - rewrite (take_next _ _ _ Hp), <- Hu. set_solver.
  - set_solver.
  - rewrite size_add_fresh by set_solver. lia.
Qed.

Lemma passed_prefix_skip ids s :
  NoDup ids -> coherent ids s -> passed_prefix s -> status s = playing ->
  passed_prefix (skip_target s).
Proof.
  intros Hnd [Ho Hp _ _] [Hu Hd Hs] Hplay. specialize (Hp Hplay).
  assert (NoDup (countryOrder s)) as Hnd' by by rewrite Ho.
  pose proof (target_not_passed _ _ _ Hnd' Hp) as Hfresh.
  assert (currentTargetId s ∉ completed s ∪ skipped s) as Hnew.
  { rewrite Hu. by rewrite elem_of_list_to_set. }
  split; simpl.
  - rewrite (take_next _ _ _ Hp), <- Hu. set_solver.
  - set_solver.
  - rewrite size_add_fresh by set_solver. lia.
Qed.

Lemma reachable_passed_prefix ids s :
  ids ≠ [] -> NoDup ids -> reachable ids s -> passed_prefix s.
Proof.
  intros Hne Hnd Hs.
  enough (coherent ids s /\ passed_prefix s) by tauto.
  revert s Hs. apply reachable_ind_cases.
  - intros random. split; [by apply coherent_init|].
    apply passed_prefix_init.
  - intros s countryId [Hc Hpp] Hp Hn ->. split.
    + eapply coherent_advance; try done. simpl. set_solver.
    + by eapply passed_prefix_correct.
  - intros s now countryId [[Ho Hp Hf Hc] [Hu Hd Hsz]] Hplay.
    by split; split.
  - intros s [Hc Hpp] Hp. split.
    + eapply coherent_advance; try done. simpl. auto.
    + by eapply passed_prefix_skip.
Qed.

(** ** Sessions over the empty id list *)

Lemma reachable_empty_session s : reachable [] s -> empty_session s.
Proof.
  revert s. apply reachable_ind_cases.
  - intros random. split; [done|]. left. by repeat split.
  - intros s countryId [Ho [(_ & Hi & Hc & Hs & Ht)|(Hf & _)]] Hp _ _;
      [|congruence].
    split; [done|]. right. split; [|split].
    + simpl. by rewrite Ho, Hi.
    + simpl. by rewrite Hi.
    + change (size ({[countryId]} ∪ completed s) + size (skipped s) = 1).
      by rewrite Hc, Hs, union_empty_r_L, size_singleton, size_empty.
  - intros s now countryId [Ho [(_ & Hi & Hc & Hs & Ht)|(Hf & _)]] Hp;
      [|congruence].
    split; [done|]. left. by repeat split.
  - intros s [Ho [(_ & Hi & Hc & Hs & Ht)|(Hf & _)]] Hp; [|congruence].
    split; [done|]. right. split; [|split].
    + simpl. by rewrite Ho, Hi.
    + simpl. by rewrite Hi.
    + change (size (completed s) +
              size ({[currentTargetId s]} ∪ skipped s) = 1).
      by rewrite Hc, Hs, union_empty_r_L, size_singleton, size_empty.
Qed.

(** ** The catalog map and the history list *)

(** The catalog map sends an id to a country with that id. *)
Lemma foldl_insert_id (countries : list Country) (m : gmap string Country) :
  (forall k c, m !! k = Some c -> id c = k) ->
  forall k c,
    foldl (fun m country => <[id country := country]> m) m countries !! k
    = Some c ->
    id c = k.
Proof.
  revert m. induction countries as [|c0 countries IH]; intros m Hm; [done|].
  simpl. apply IH. intros k c.
  destruct (decide (id c0 = k)) as [<-|Hne].
  - rewrite lookup_insert_eq. congruence.
  - rewrite lookup_insert_ne by done. apply Hm.
Qed.

Lemma foldl_insert_known (countries : list Country)
    (m : gmap string Country) (x : string) :
  x ∈ countryIds countries \/ is_Some (m !! x) ->
  is_Some
    (foldl (fun m country => <[id country := country]> m) m countries !! x).
Proof.
  revert m. induction countries as [|c0 countries IH]; intros m Hx; simpl.
  - destruct Hx as [Hx|Hx]; [|done]. by apply not_elem_of_nil in Hx.
  - apply IH. destruct (decide (id c0 = x)) as [<-|Hne].
    + right. rewrite lookup_insert_eq. eauto.
    + rewrite lookup_insert_ne by done.
      destruct Hx as [Hx|Hx]; [|by right].
      apply elem_of_cons in Hx as [Hx|Hx]; [congruence|by left].
Qed.

Lemma getCountryById_id (countries : list Country) (x : string) (c : Country) :
  getCountryById countries x = Some c -> id c = x.
Proof.
  apply foldl_insert_id. intros k c'. by rewrite lookup_empty.
Qed.

Lemma getCountryById_known (countries : list Country) (x : string) :
  x ∈ countryIds countries ->
  exists c, getCountryById countries x = Some c /\ id c = x.
Proof.
  intros Hx.
  destruct (foldl_insert_known countries ∅ x (or_introl Hx)) as [c Hc].
  exists c. split; [done|]. by eapply getCountryById_id.
Qed.

Lemma completedCountries_eq lookup game :
  completedCountries lookup game =
  omap (history_entry lookup game) (seq 0 (currentIndex game)).
Proof. reflexivity. Qed.

Lemma history_ids_prefix (lookup : string -> option Country)
    (game : GameState) (n : nat) :
  (forall x, x ∈ countryOrder game ->
             exists c, lookup x = Some c /\ id c = x) ->
  n <= length (countryOrder game) ->
  entry_id <$> omap (history_entry lookup game) (seq 0 n)
  = take n (countryOrder game).
Proof.
  intros Hknown. induction n as [|n IH]; intros Hn; [done|].
  destruct (lookup_lt_is_Some_2 (countryOrder game) n) as [x Hx]; [lia|].
  rewrite seq_S, omap_app, fmap_app, IH by lia.
  rewrite (take_S_r _ _ _ Hx). f_equal. simpl.
  unfold history_entry. rewrite Hx.
  destruct (Hknown x) as (c & -> & Hc); [by eapply list_elem_of_lookup_2|].
  simpl. by rewrite Hc.
Qed.

Lemma history_entry_flag (lookup : string -> option Country)
    (game : GameState) (i : nat) (e : HistoryEntry) :
  (forall x c, lookup x = Some c -> id c = x) ->
  history_entry lookup game i = Some e ->
  countryOrder game !! i = Some (entry_id e) /\
  wasSkipped e = bool_decide (entry_id e ∈ skipped game).
Proof.
  intros Hid. unfold history_entry.
  destruct (countryOrder game !! i) as [x|]; [|done].
  destruct (lookup x) as [c|] eqn:Hc; [|done].
  intros [= <-]. simpl. by rewrite (Hid x c Hc).
Qed.

(** * The claims *)

(** ** C1: initialising with no ids *)

Example two_start_order : countryOrder two_start = ["8"; "4"].
Proof. reflexivity. Qed.

Example two_start_target : currentTargetId two_start = "8".
Proof. reflexivity. Qed.

(** C1 does not hold: the initial state over no ids is a playing state. *)
Lemma initialize_empty_counterexample :
  ~ initialize_empty_claim Random.zero.
Proof. intros [Hs _]. discriminate Hs. Qed.

(** C1, amended: with an empty list of region ids [createInitialState]
    yields an empty play order with status playing, cursor 0, the empty
    string as current target and nothing completed, skipped or clicked. *)
Theorem initialize_empty (random : nat -> Random.draw) :
  createInitialState random [] =
  {| completed := ∅;
     skipped := ∅;
     wrongClicks := 0;
     currentTargetId := "";
     status := playing;
     lastWrongId := None;
     lastWrongTimestamp := 0%Z;
     countryOrder := [];
     currentIndex := 0 |}.
Proof. reflexivity. Qed.

(** ** C2: finished exactly at the end of the play order *)

(** C2 does not hold for the session over no ids: its initial state is
    playing although the cursor already equals the length of the order. *)
Lemma finished_iff_cursor_counterexample :
  reachable [] empty_start /\
  ~ (status empty_start = finished <->
     currentIndex empty_start = length (countryOrder empty_start)).
Proof.
  split; [apply reach_init|].
  intros [_ H]. specialize (H eq_refl). discriminate H.
Qed.

(** C2, amended: in every state reachable from [createInitialState] on a
    non-empty id list by any sequence of clicks and skips, the status is
    finished if and only if the cursor equals the length of the play
    order. *)
Theorem finished_iff_cursor_at_end (ids : list string) (s : GameState) :
  ids ≠ [] -> reachable ids s ->
  status s = finished <-> currentIndex s = length (countryOrder s).
Proof.
  intros Hne Hs. destruct (reachable_coherent ids s Hne Hs) as [_ Hp Hf _].
  split; [exact Hf|]. intros Hend.
  destruct (status_cases s) as [Hplay|]; [|done].
  apply Hp, lookup_lt_Some in Hplay. lia.
Qed.

Lemma finished_iff_cursor_at_end_witness :
  status two_skipped_end = finished <->
  currentIndex two_skipped_end = length (countryOrder two_skipped_end).
Proof.
  apply (finished_iff_cursor_at_end ["4"; "8"]).
  - discriminate.
  - apply reach_skip, reach_click, reach_init.
Defined.

(** ** C3: the cursor counts the completed and skipped ids *)

(** C3 does not hold for an id list that repeats an id, which the array
    type of the source admits: over ["a"; "a"] the second skip adds "a" to
    skipped once more, so after two skips the cursor is 2 while skipped has
    one element and completed none. *)
Lemma sizes_sum_to_cursor_counterexample :
  reachable ["a"; "a"] twice_skipped /\
  size (completed twice_skipped) + size (skipped twice_skipped)
  ≠ currentIndex twice_skipped.
Proof.
  split; [apply reach_skip, reach_skip, reach_init|].
  by vm_compute.
Qed.

(** C3, amended: provided the id list is duplicate-free (empty or not), in
    every state reachable from [createInitialState] by any sequence of
    clicks and skips, [completed.size + skipped.size] equals the cursor. *)
Theorem sizes_sum_to_cursor (ids : list string) (s : GameState) :
  NoDup ids -> reachable ids s ->
  size (completed s) + size (skipped s) = currentIndex s.
Proof.
  intros Hnd Hs. destruct (decide (ids = [])) as [->|Hne].
  - destruct (reachable_empty_session s Hs)
      as [_ [(_ & Hi & Hc & Hk & _)|(_ & Hi & Hsz)]].
    + by rewrite Hc, Hk, Hi, size_empty.
    + by rewrite Hi.
  - by destruct (reachable_passed_prefix ids s Hne Hnd Hs).
Qed.

Lemma sizes_sum_to_cursor_witness :
  size (completed two_skipped_end) + size (skipped two_skipped_end)
  = currentIndex two_skipped_end.
Proof.
  apply (sizes_sum_to_cursor ["4"; "8"]).
  - apply (bool_decide_unpack _). vm_compute. exact I.
  - apply reach_skip, reach_click, reach_init.
Defined.

(** The sizes and the cursor of the session over the repeated id. *)
Example repeated_id_sizes :
  size (completed twice_skipped) + size (skipped twice_skipped) = 1 /\
  currentIndex twice_skipped = 2.
Proof. by vm_compute. Qed.

(** ** C4: initialising with some ids *)

(** C4: for every non-empty list of region ids, [createInitialState] yields
    a play order that is a permutation of the ids (so of the same length),
    cursor 0, empty completed and skipped sets, no wrong clicks, no last
    wrong id, and status playing. *)
Theorem initialize_nonempty (random : nat -> Random.draw)
    (ids : list string) :
  ids ≠ [] ->
  let s := createInitialState random ids in
  countryOrder s ≡ₚ ids /\
  length (countryOrder s) = length ids /\
  currentIndex s = 0 /\
  completed s = ∅ /\
  skipped s = ∅ /\
  wrongClicks s = 0 /\
  lastWrongId s = None /\
  status s = playing.
Proof.
  intros _. simpl. split; [apply shuffleArray_Permutation|].
  split; [apply shuffleArray_length|]. done.
Qed.

Lemma initialize_nonempty_witness :
  countryOrder four_start ≡ₚ ["a"; "b"; "c"; "d"] /\
  length (countryOrder four_start) = 4 /\
  currentIndex four_start = 0 /\
  completed four_start = ∅ /\
  skipped four_start = ∅ /\
  wrongClicks four_start = 0 /\
  lastWrongId four_start = None /\
  status four_start = playing.
Proof.
  apply (initialize_nonempty Random.mixed ["a"; "b"; "c"; "d"]).
  discriminate.
Defined.

(** ** C5: the wrong-click transition *)

Example two_after_wrong_eq :
  two_after_wrong = wrong_click 1000 "4" two_start.
Proof. reflexivity. Qed.

(** C5 does not hold as stated.  In the playing state over no ids nothing is
    at the cursor, yet a click on the empty id is taken as correct; and the
    stored time is whatever the clock returns, so a clock that was set back
    between two wrong clicks makes it decrease. *)
Lemma wrong_click_counterexample :
  ~ wrong_click_claim empty_start 5 "" /\
  ~ wrong_click_claim two_after_wrong 500 "4".
Proof.
  split; intros H.
  - destruct H as (Hw & _); [done|set_solver|done|]. discriminate Hw.
  - destruct H as (_ & _ & Ht & _); [done|set_solver|done|].
    vm_compute in Ht. by apply Ht.
Qed.

(** C5, amended: for every state with status playing whose current target is
    the id at the cursor of the play order (as in every playing state of a
    session over a non-empty id list) and every clicked id that is not in
    completed and differs from that target, the click increments the
    wrong-click count by exactly 1, sets the last wrong id to the clicked id,
    sets the last wrong time to the clock value of the click (which is at
    least the previous one whenever the clock has not gone back), and leaves
    cursor, completed, skipped, status, play order and target unchanged. *)
Theorem wrong_click_transition (s : GameState) (now : Z)
    (clickedId : string) :
  status s = playing ->
  countryOrder s !! currentIndex s = Some (currentTargetId s) ->
  clickedId ∉ completed s ->
  countryOrder s !! currentIndex s ≠ Some clickedId ->
  let s' := handleCountryClick now clickedId s in
  wrongClicks s' = wrongClicks s + 1 /\
  lastWrongId s' = Some clickedId /\
  lastWrongTimestamp s' = now /\
  ((lastWrongTimestamp s <= now)%Z ->
   (lastWrongTimestamp s <= lastWrongTimestamp s')%Z) /\
  currentIndex s' = currentIndex s /\
  completed s' = completed s /\
  skipped s' = skipped s /\
  status s' = status s /\
  countryOrder s' = countryOrder s /\
  currentTargetId s' = currentTargetId s.
Proof.
  intros Hp Ht Hc Hne. simpl.
  rewrite click_wrong; [|done|done|congruence].
  simpl. repeat split; done.
Qed.

Lemma wrong_click_transition_witness :
  wrongClicks two_wrong_again = wrongClicks two_after_wrong + 1 /\
  lastWrongId two_wrong_again = Some "4" /\
  lastWrongTimestamp two_wrong_again = 1500%Z /\
  ((lastWrongTimestamp two_after_wrong <= 1500)%Z ->
   (lastWrongTimestamp two_after_wrong
    <= lastWrongTimestamp two_wrong_again)%Z) /\
  currentIndex two_wrong_again = currentIndex two_after_wrong /\
  completed two_wrong_again = completed two_after_wrong /\
  skipped two_wrong_again = skipped two_after_wrong /\
  status two_wrong_again = status two_after_wrong /\
  countryOrder two_wrong_again = countryOrder two_after_wrong /\
  currentTargetId two_wrong_again = currentTargetId two_after_wrong.
Proof.
  apply (wrong_click_transition two_after_wrong 1500 "4").
  - reflexivity.
  - reflexivity.
  - apply not_elem_of_empty.
  - discriminate.
Defined.

(** ** C6: skipping the current target *)

(** C6 does not hold in the playing state over no ids: there is no id at the
    cursor (the skip adds the empty string to skipped), and the state becomes
    finished with cursor 1 beyond the empty play order. *)
Lemma skip_counterexample : ~ skip_claim empty_start.
Proof. intros H. destruct H as (target & Ht & _); [done|]. discriminate Ht. Qed.

(** C6, amended: for every state with status playing whose current target is
    the id at the cursor of the play order (as in every playing state of a
    session over a non-empty id list), whatever was clicked before, the skip
    adds exactly that id to skipped, advances the cursor by exactly 1, clears
    the last wrong id, and sets the status to finished exactly when the new
    cursor equals the length of the play order; completed, the wrong-click
    count and the play order are unchanged. *)
Theorem skip_transition (s : GameState) :
  status s = playing ->
  countryOrder s !! currentIndex s = Some (currentTargetId s) ->
  let s' := skipCountry s in
  skipped s' = {[currentTargetId s]} ∪ skipped s /\
  currentIndex s' = currentIndex s + 1 /\
  lastWrongId s' = None /\
  (status s' = finished <-> currentIndex s' = length (countryOrder s')) /\
  completed s' = completed s /\
  wrongClicks s' = wrongClicks s /\
  countryOrder s' = countryOrder s.
Proof.
  intros Hp Ht. simpl. rewrite skip_playing by done. simpl.
  apply lookup_lt_Some in Ht.
  repeat split; try done.
  - intros Hf%status_of_finished%Nat.leb_le. lia.
  - intros He. apply status_of_finished, Nat.leb_le. lia.
Qed.

Lemma skip_transition_witness :
  skipped two_after_skip
  = {[currentTargetId two_after_wrong]} ∪ skipped two_after_wrong /\
  currentIndex two_after_skip = currentIndex two_after_wrong + 1 /\
  lastWrongId two_after_skip = None /\
  (status two_after_skip = finished <->
   currentIndex two_after_skip = length (countryOrder two_after_skip)) /\
  completed two_after_skip = completed two_after_wrong /\
  wrongClicks two_after_skip = wrongClicks two_after_wrong /\
  countryOrder two_after_skip = countryOrder two_after_wrong.
Proof.
  apply (skip_transition two_after_wrong); reflexivity.
Defined.

Example click_empty_id_on_empty_start :
  let s' := handleCountryClick 5 "" empty_start in
  completed s' = {[""]} /\ currentIndex s' = 1 /\ status s' = finished /\
  wrongClicks s' = 0.
Proof. by vm_compute. Qed.

Example skip_on_empty_start :
  let s' := skipCountry empty_start in
  skipped s' = {[""]} /\ currentIndex s' = 1 /\ status s' = finished /\
  length (countryOrder s') = 0.
Proof. by vm_compute. Qed.

(** ** C7: clearing the last wrong click *)

(** C7 does not hold: a correct click and a skip after a wrong click at time
    1000 clear the id but keep the time 1000. *)
Lemma last_wrong_cleared_counterexample :
  ~ last_wrong_cleared (handleCountryClick 2000 "8" two_after_wrong) /\
  ~ last_wrong_cleared (skipCountry two_after_wrong).
Proof. split; intros [_ H]; discriminate H. Qed.

(** C7, amended: the last wrong id is cleared by every correct-click
    transition, every skip and every reset; the last wrong time is left as it
    was by a correct click and by a skip, and is set back to 0 by a reset. *)
Theorem last_wrong_after_transitions :
  (forall s now countryId,
      status s = playing -> countryId ∉ completed s ->
      countryId = currentTargetId s ->
      lastWrongId (handleCountryClick now countryId s) = None /\
      lastWrongTimestamp (handleCountryClick now countryId s) =
        lastWrongTimestamp s) /\
  (forall s,
      status s = playing ->
      lastWrongId (skipCountry s) = None /\
      lastWrongTimestamp (skipCountry s) = lastWrongTimestamp s) /\
  (forall random ids,
      lastWrongId (resetGame random ids) = None /\
      lastWrongTimestamp (resetGame random ids) = 0%Z).
Proof.
  split; [|split].
  - intros s now countryId Hp Hc Ht. by rewrite click_correct.
  - intros s Hp. by rewrite skip_playing.
  - done.
Qed.

Lemma last_wrong_after_transitions_witness :
  (lastWrongId (handleCountryClick 2000 "8" two_after_wrong) = None /\
   lastWrongTimestamp (handleCountryClick 2000 "8" two_after_wrong) =
     1000%Z) /\
  (lastWrongId (skipCountry two_after_wrong) = None /\
   lastWrongTimestamp (skipCountry two_after_wrong) = 1000%Z) /\
  (lastWrongId (resetGame Random.mixed ["4"; "8"]) = None /\
   lastWrongTimestamp (resetGame Random.mixed ["4"; "8"]) = 0%Z).
Proof.
  destruct last_wrong_after_transitions as (Hclick & Hskip & Hreset).
  split; [|split].
  - apply (Hclick two_after_wrong 2000%Z "8").
    + reflexivity.
    + apply not_elem_of_empty.
    + reflexivity.
  - apply (Hskip two_after_wrong). reflexivity.
  - apply (Hreset Random.mixed ["4"; "8"]).
Defined.

(** ** C8: nothing moves a finished session *)

(** C8: in every state with status finished, a click on any id and a skip
    return the state unchanged, so no sequence of clicks and skips alters
    completed, skipped, the wrong-click count or the cursor; a reset is the
    only way out, and it yields a playing state. *)
Theorem finished_is_terminal (s : GameState) :
  status s = finished ->
  (forall now countryId, handleCountryClick now countryId s = s) /\
  skipCountry s = s /\
  (forall actions, run actions s = s) /\
  (forall random ids, status (resetGame random ids) = playing).
Proof.
  intros Hf. split; [|split; [|split]].
  - intros now countryId. by apply click_finished.
  - by apply skip_finished.
  - intros actions. induction actions as [|a actions IH]; [done|].
    unfold run in *. simpl.
    destruct a as [now countryId|]; simpl.
    + by rewrite click_finished.
    + by rewrite skip_finished.
  - done.
Qed.

Example two_finished_state :
  status two_finished = finished /\ currentIndex two_finished = 2 /\
  completed two_finished = {["4"; "8"]} /\ wrongClicks two_finished = 0.
Proof. by vm_compute. Qed.

Lemma finished_is_terminal_witness :
  (forall now countryId, handleCountryClick now countryId two_finished
                         = two_finished) /\
  skipCountry two_finished = two_finished /\
  (forall actions, run actions two_finished = two_finished) /\
  (forall random ids, status (resetGame random ids) = playing).
Proof.
  apply (finished_is_terminal two_finished). reflexivity.
Defined.

(** ** C9: ids that are not in the catalog *)

(** C9 does not hold as stated.  Over the empty catalog the empty string is
    not in the catalog, yet it is the current target of the initial state and
    a click on it is taken as correct; and in a finished state a click on an
    unknown id changes nothing instead of counting as wrong. *)
Lemma unknown_id_counterexample :
  ~ unknown_id_claim [] empty_start 5 "" /\
  ~ unknown_id_claim ["4"; "8"] two_finished 5 "x".
Proof.
  split; intros H.
  - assert (handleCountryClick 5 "" empty_start
            = wrong_click 5 "" empty_start) as E.
    { apply H; [apply reach_init|]. apply not_elem_of_nil. }
    apply (f_equal wrongClicks) in E. discriminate E.
  - assert (handleCountryClick 5 "x" two_finished
            = wrong_click 5 "x" two_finished) as E.
    { apply H; [do 2 apply reach_click; apply reach_init|].
      intros Hin. repeat (apply elem_of_cons in Hin as [Hin|Hin];
                          [discriminate Hin|]).
      by apply not_elem_of_nil in Hin. }
    apply (f_equal wrongClicks) in E. discriminate E.
Qed.

(** C9, amended: the transitions are total functions, and in every reachable
    state a click on an id that is not in the catalog (and, when the catalog
    is empty, is not the empty string) performs the wrong-click transition
    when the status is playing and returns the state unchanged when it is
    finished. *)
Theorem unknown_id_click (ids : list string) (s : GameState) (now : Z)
    (clickedId : string) :
  reachable ids s -> clickedId ∉ ids -> (ids = [] -> clickedId ≠ "") ->
  handleCountryClick now clickedId s =
  match status s with
  | playing => wrong_click now clickedId s
  | finished => s
  end.
Proof.
  intros Hs Hout Hempty.
  destruct (status s) eqn:Hst; [|by apply click_finished].
  destruct (decide (ids = [])) as [->|Hne].
  - destruct (reachable_empty_session s Hs)
      as [_ [(_ & _ & Hc & _ & Ht)|(Hf & _)]]; [|congruence].
    apply click_wrong; [done| |].
    + rewrite Hc. apply not_elem_of_empty.
    + rewrite Ht. by apply Hempty.
  - destruct (reachable_coherent ids s Hne Hs) as [Ho Hp _ Hc].
    apply click_wrong; [done| |].
    + intros Hin. by apply Hout, Hc.
    + intros ->. apply Hout. rewrite <- Ho.
      eapply list_elem_of_lookup_2. by apply Hp.
Qed.

Lemma unknown_id_click_witness :
  handleCountryClick 5 "x" two_after_wrong =
  match status two_after_wrong with
  | playing => wrong_click 5 "x" two_after_wrong
  | finished => two_after_wrong
  end.
Proof.
  apply (unknown_id_click ["4"; "8"]).
  - apply reach_click, reach_init.
  - intros Hin. repeat (apply elem_of_cons in Hin as [Hin|Hin];
                        [discriminate Hin|]).
    by apply not_elem_of_nil in Hin.
  - discriminate.
Defined.

(** ** C10: the passed prefix and the history list *)

(** C10 does not hold for the session over no ids (a duplicate-free list):
    after a skip the set of skipped ids holds the empty string, while the
    play order, and so each of its prefixes, is empty. *)
Lemma passed_prefix_counterexample :
  NoDup (@nil string) /\
  reachable [] empty_skipped /\
  completed empty_skipped ∪ skipped empty_skipped
  ≠ list_to_set
      (take (currentIndex empty_skipped) (countryOrder empty_skipped)).
Proof.
  split; [apply NoDup_nil_2|]. split; [apply reach_skip, reach_init|].
  intros H.
  assert ("" ∈ completed empty_skipped ∪ skipped empty_skipped) as Hin.
  { apply elem_of_union_r. by apply elem_of_union_l, elem_of_singleton. }
  rewrite H in Hin. by apply not_elem_of_empty in Hin.
Qed.

(** C10, amended: provided the catalog is non-empty and its id list is
    duplicate-free, in every state reachable by any sequence of clicks and
    skips the union of completed and skipped is exactly the set of the first
    cursor ids of the play order, completed and skipped are disjoint, and the
    history list of the presentation layer lists exactly that prefix in
    order, each entry flagged as skipped exactly when its id is in skipped
    (and otherwise completed). *)
Theorem passed_prefix_history (countries : list Country) (s : GameState) :
  countries ≠ [] -> NoDup (countryIds countries) ->
  reachable (countryIds countries) s ->
  completed s ∪ skipped s
  = list_to_set (take (currentIndex s) (countryOrder s)) /\
  completed s ## skipped s /\
  entry_id <$> completedCountries (getCountryById countries) s
  = take (currentIndex s) (countryOrder s) /\
  (forall e, e ∈ completedCountries (getCountryById countries) s ->
             wasSkipped e = bool_decide (entry_id e ∈ skipped s) /\
             (wasSkipped e = false -> entry_id e ∈ completed s)).
Proof.
  intros Hne Hnd Hs.
  assert (countryIds countries ≠ []) as Hne' by by destruct countries.
  destruct (reachable_passed_prefix _ s Hne' Hnd Hs) as [Hu Hd _].
  destruct (reachable_coherent _ s Hne' Hs) as [Ho Hp Hf _].
  assert (currentIndex s <= length (countryOrder s)) as Hle.
  { destruct (status_cases s) as [Hst|Hst].
    - apply Hp, lookup_lt_Some in Hst. lia.
    - apply Hf in Hst. lia. }
  split; [done|]. split; [done|]. split.
  - rewrite completedCountries_eq. apply history_ids_prefix; [|done].
    intros x Hx. apply getCountryById_known. by rewrite <- Ho.
  - intros e He. rewrite completedCountries_eq in He.
    apply list_elem_of_omap in He as (i & Hi & He).
    apply history_entry_flag in He as [Hx Hflag];
      [|apply getCountryById_id].
    split; [done|]. intros Hfalse.
    rewrite Hfalse in Hflag. symmetry in Hflag.
    apply bool_decide_eq_false in Hflag.
    apply elem_of_seq in Hi.
    assert (entry_id e ∈ completed s ∪ skipped s) as Hin.
    { rewrite Hu. apply elem_of_list_to_set.
      apply list_elem_of_lookup. exists i.
      apply lookup_take_Some. split; [done|lia]. }
    apply elem_of_union in Hin as [Hin|Hin]; done.
Qed.

Example two_history :
  completedCountries (getCountryById two_countries)
    (skipCountry (handleCountryClick 7 "8" two_start))
  = [mkHistoryEntry "8" "Beta" false; mkHistoryEntry "4" "Alpha" true].
Proof. by vm_compute. Qed.

Lemma passed_prefix_history_witness :
  completed two_skipped_end ∪ skipped two_skipped_end
  = list_to_set
      (take (currentIndex two_skipped_end) (countryOrder two_skipped_end)) /\
  completed two_skipped_end ## skipped two_skipped_end /\
  entry_id
    <$> completedCountries (getCountryById two_countries) two_skipped_end
  = take (currentIndex two_skipped_end) (countryOrder two_skipped_end) /\
  (forall e,
      e ∈ completedCountries (getCountryById two_countries) two_skipped_end ->
      wasSkipped e = bool_decide (entry_id e ∈ skipped two_skipped_end) /\
      (wasSkipped e = false -> entry_id e ∈ completed two_skipped_end)).
Proof.
  apply (passed_prefix_history two_countries).
  - discriminate.
  - apply (bool_decide_unpack _). vm_compute. exact I.
  - apply reach_skip, reach_click, (reach_init ["4"; "8"] Random.zero).
Defined.

(** * Further properties of the code *)

(** ** One step and many *)

Lemma run_cons a actions s : run (a :: actions) s = run actions (step s a).
Proof. reflexivity. Qed.

Lemma run_app actions1 actions2 s :
  run (actions1 ++ actions2) s = run actions2 (run actions1 s).
Proof. unfold run. apply foldl_app. Qed.

(** The four things a step can do. *)
Lemma step_cases (s : GameState) (a : Action) :
  step s a = s \/
  (status s = playing /\
   (((exists now, a = Click now (currentTargetId s)) /\
     (currentTargetId s ∉ completed s) /\
     step s a = correct_click (currentTargetId s) s) \/
    (exists now countryId,
        a = Click now countryId /\ (countryId ∉ completed s) /\
        countryId ≠ currentTargetId s /\
        step s a = wrong_click now countryId s) \/
    (a = SkipTarget /\ step s a = skip_target s))).
Proof.
  destruct (status_cases s) as [Hp|Hf].
  - destruct a as [now countryId|]; simpl.
    + destruct (decide (countryId ∈ completed s)) as [Hc|Hc];
        [left; by apply click_completed|].
      right. split; [done|].
      destruct (decide (countryId = currentTargetId s)) as [->|Ht].
      * left. split; [by eexists|]. split; [done|]. by apply click_correct.
      * right. left. exists now, countryId. by rewrite click_wrong.
    + right. split; [done|]. right. right. by rewrite skip_playing.
  - left. destruct a; simpl; [by apply click_finished|by apply skip_finished].
Qed.

(** Induction over the reachable states with everything that is known in
    each of the cases. *)
Lemma reachable_ind_full (ids : list string) (P : GameState -> Prop) :
  (forall random, P (createInitialState random ids)) ->
  (forall s,
      reachable ids s -> P s -> status s = playing ->
      currentTargetId s ∉ completed s ->
      P (correct_click (currentTargetId s) s)) ->
  (forall s now countryId,
      reachable ids s -> P s -> status s = playing ->
      countryId ∉ completed s -> countryId ≠ currentTargetId s ->
      P (wrong_click now countryId s)) ->
  (forall s, reachable ids s -> P s -> status s = playing ->
             P (skip_target s)) ->
  forall s, reachable ids s -> P s.
Proof.
  intros Hinit Hcorrect Hwrong Hskip s Hs.
  induction Hs as [random|s now countryId Hs IH|s Hs IH]; [apply Hinit|..].
  - destruct (step_cases s (Click now countryId))
      as [E|(Hp & [(_ & Hc & E)|[(t & x & [= -> ->] & Hc & Ht & E)|[[=] _]]])];
      simpl in E; rewrite E; auto.
  - destruct (step_cases s SkipTarget)
      as [E|(Hp & [([t [=]] & _)|[(t & x & [=] & _)|[_ E]]])];
      simpl in E; rewrite E; auto.
Qed.

Lemma reachable_run ids actions s :
  reachable ids s -> reachable ids (run actions s).
Proof.
  revert s. induction actions as [|a actions IH]; intros s Hs; [done|].
  rewrite run_cons. apply IH. destruct a; simpl; by constructor.
Qed.

(** ** The correct-click transition *)

(** A click on the current target, in a playing state whose target is the id
    at the cursor and is not yet completed, adds that id to completed,
    advances the cursor by 1, clears the last wrong id, leaves skipped, the
    wrong-click count and the play order alone, finishes the session exactly
    when the new cursor is the length of the play order, and otherwise makes
    the id at the new cursor the target. *)
Theorem correct_click_transition (s : GameState) (now : Z) :
  status s = playing ->
  countryOrder s !! currentIndex s = Some (currentTargetId s) ->
  currentTargetId s ∉ completed s ->
  let s' := handleCountryClick now (currentTargetId s) s in
  completed s' = {[currentTargetId s]} ∪ completed s /\
  currentIndex s' = currentIndex s + 1 /\
  skipped s' = skipped s /\
  wrongClicks s' = wrongClicks s /\
  lastWrongId s' = None /\
  countryOrder s' = countryOrder s /\
  (status s' = finished <-> currentIndex s' = length (countryOrder s')) /\
  (status s' = playing ->
   countryOrder s' !! currentIndex s' = Some (currentTargetId s')) /\
  (status s' = finished -> currentTargetId s' = "").
Proof.
  intros Hp Ht Hc. simpl. rewrite click_correct by done. simpl.
  apply lookup_lt_Some in Ht.
  repeat split; try done.
  - intros Hf%status_of_finished%Nat.leb_le. lia.
  - intros He. apply status_of_finished, Nat.leb_le. lia.
  - intros Hb%status_of_playing. rewrite Hb. simpl.
    apply Nat.leb_gt in Hb.
    by destruct (lookup_lt_is_Some_2 (countryOrder s) _ Hb) as [x ->].
  - intros Hb%status_of_finished. by rewrite Hb.
Qed.

Lemma correct_click_transition_witness :
  completed (handleCountryClick 8 (currentTargetId two_after_wrong)
               two_after_wrong)
  = {[currentTargetId two_after_wrong]} ∪ completed two_after_wrong /\
  currentIndex (handleCountryClick 8 (currentTargetId two_after_wrong)
                  two_after_wrong) = 1.
Proof.
  destruct (correct_click_transition two_after_wrong 8)
    as (Hc & Hi & _).
  - reflexivity.
  - reflexivity.
  - apply not_elem_of_empty.
  - split; [exact Hc|exact Hi].
Defined.

(** ** Clicks on a completed country *)

(** A click on an id that is already completed changes nothing, however
    often and whenever it is repeated. *)
Theorem completed_click_ignored (s : GameState) (countryId : string)
    (times : list Z) :
  countryId ∈ completed s ->
  run ((fun now => Click now countryId) <$> times) s = s.
Proof.
  intros Hc. induction times as [|now times IH]; [done|].
  rewrite fmap_cons, run_cons. simpl. by rewrite click_completed.
Qed.

Example two_after_correct_state :
  status two_after_correct = playing /\
  completed two_after_correct = {["8"]} /\
  currentTargetId two_after_correct = "4".
Proof. by vm_compute. Qed.

Lemma completed_click_ignored_witness :
  run ((fun now => Click now "8") <$> [1; 2; 3]%Z) two_after_correct
  = two_after_correct.
Proof.
  apply (completed_click_ignored two_after_correct "8" [1; 2; 3]%Z).
  apply elem_of_union_l, elem_of_singleton. reflexivity.
Defined.

(** ** What a run never undoes *)

Lemma step_only_grows (s : GameState) (a : Action) :
  countryOrder (step s a) = countryOrder s /\
  completed s ⊆ completed (step s a) /\
  skipped s ⊆ skipped (step s a) /\
  wrongClicks s <= wrongClicks (step s a) /\
  currentIndex s <= currentIndex (step s a).
Proof.
  destruct (step_cases s a)
    as [E|(_ & [(_ & _ & E)|[(t & x & _ & _ & _ & E)|[_ E]]])];
    rewrite E; simpl; repeat split; try done; try lia.
  - apply union_subseteq_r.
  - apply union_subseteq_r.
Qed.

(** Whatever is clicked or skipped, the play order stays as it is, completed
    and skipped only gain ids, and neither the wrong-click count nor the
    cursor goes down. *)
Theorem run_only_grows (actions : list Action) (s : GameState) :
  countryOrder (run actions s) = countryOrder s /\
  completed s ⊆ completed (run actions s) /\
  skipped s ⊆ skipped (run actions s) /\
  wrongClicks s <= wrongClicks (run actions s) /\
  currentIndex s <= currentIndex (run actions s).
Proof.
  revert s. induction actions as [|a actions IH]; intros s; [done|].
  rewrite run_cons.
  destruct (IH (step s a)) as (Ho & Hc & Hk & Hw & Hi).
  destruct (step_only_grows s a) as (Ho' & Hc' & Hk' & Hw' & Hi').
  repeat split.
  - congruence.
  - by transitivity (completed (step s a)).
  - by transitivity (skipped (step s a)).
  - lia.
  - lia.
Qed.

(** ** Every action counts at most once *)

Lemma step_counts_once (s : GameState) (a : Action) :
  wrongClicks (step s a) + currentIndex (step s a)
  <= wrongClicks s + currentIndex s + 1 /\
  wrongClicks (step s a)
  <= wrongClicks s + (if is_click a then 1 else 0).
Proof.
  destruct (step_cases s a)
    as [E|(_ & [([t ->] & _ & E)|[(t & x & -> & _ & _ & E)|[-> E]]])];
    rewrite E; simpl; lia.
Qed.

(** An action is either ignored, or advances the cursor by one, or adds one
    wrong click: after a run the wrong-click count and the cursor have
    together grown by at most the number of actions, and the wrong-click
    count alone by at most the number of clicks. *)
Theorem each_action_counts_once (actions : list Action) (s : GameState) :
  wrongClicks (run actions s) + currentIndex (run actions s)
  <= wrongClicks s + currentIndex s + length actions /\
  wrongClicks (run actions s) <= wrongClicks s + count_clicks actions.
Proof.
  revert s. induction actions as [|a actions IH]; intros s.
  - unfold count_clicks. simpl. lia.
  - rewrite run_cons. destruct (IH (step s a)) as [H1 H2].
    destruct (step_counts_once s a) as [H3 H4].
    unfold count_clicks in *. simpl. destruct (is_click a); simpl in *; lia.
Qed.

(** ** The play order and the ids of the catalog *)

(** The play order of every reachable state is a rearrangement of the ids
    the session was started with, and over a non-empty id list the cursor
    never passes its end. *)
Theorem play_order_is_permutation (ids : list string) (s : GameState) :
  reachable ids s ->
  countryOrder s ≡ₚ ids /\ (ids ≠ [] -> currentIndex s <= length ids).
Proof.
  intros Hs. destruct (decide (ids = [])) as [->|Hne].
  - destruct (reachable_empty_session s Hs) as [-> _]. done.
  - destruct (reachable_coherent ids s Hne Hs) as [Ho Hp Hf _].
    split; [done|]. intros _. rewrite <- (Permutation_length Ho).
    destruct (status_cases s) as [Hst|Hst].
    + apply Hp, lookup_lt_Some in Hst. lia.
    + apply Hf in Hst. lia.
Qed.

Lemma play_order_is_permutation_witness :
  countryOrder two_skipped_end ≡ₚ ["4"; "8"] /\
  (["4"; "8"] ≠ [] -> currentIndex two_skipped_end <= length ["4"; "8"]).
Proof.
  apply (play_order_is_permutation ["4"; "8"] two_skipped_end).
  apply reach_skip, reach_click, reach_init.
Defined.

Lemma playing_target_known (ids : list string) (s : GameState) :
  ids ≠ [] -> reachable ids s -> status s = playing ->
  currentTargetId s ∈ ids.
Proof.
  intros Hne Hs Hp. destruct (reachable_coherent ids s Hne Hs) as [Ho Ht _ _].
  rewrite <- Ho. eapply list_elem_of_lookup_2. by apply Ht.
Qed.

(** Over a non-empty catalog only ids of the catalog are ever completed or
    skipped. *)
Theorem only_catalog_ids (ids : list string) (s : GameState) (x : string) :
  ids ≠ [] -> reachable ids s ->
  x ∈ completed s ∪ skipped s -> x ∈ ids.
Proof.
  intros Hne Hs. revert x. revert s Hs.
  apply (reachable_ind_full ids
           (fun s => forall x, x ∈ completed s ∪ skipped s -> x ∈ ids)).
  - intros random x Hx. simpl in Hx. set_solver.
  - intros s Hs IH Hp _ x Hx. simpl in Hx.
    apply elem_of_union in Hx as [[->%elem_of_singleton|Hx]%elem_of_union|Hx].
    + by apply playing_target_known.
    + apply IH. by apply elem_of_union_l.
    + apply IH. by apply elem_of_union_r.
  - intros s now countryId Hs IH Hp _ _ x Hx. by apply IH.
  - intros s Hs IH Hp x Hx. simpl in Hx.
    apply elem_of_union in Hx as [Hx|[->%elem_of_singleton|Hx]%elem_of_union].
    + apply IH. by apply elem_of_union_l.
    + by apply playing_target_known.
    + apply IH. by apply elem_of_union_r.
Qed.

Lemma only_catalog_ids_witness : "8" ∈ ["4"; "8"].
Proof.
  apply (only_catalog_ids ["4"; "8"] two_skipped_end "8").
  - discriminate.
  - apply reach_skip, reach_click, reach_init.
  - apply elem_of_union_l, elem_of_union_l, elem_of_singleton. reflexivity.
Defined.

(** ** The target of a playing state *)

Lemma target_is_fresh (ids : list string) (s : GameState) :
  ids ≠ [] -> NoDup ids -> reachable ids s -> status s = playing ->
  currentTargetId s ∉ completed s ∪ skipped s.
Proof.
  intros Hne Hnd Hs Hp.
  destruct (reachable_coherent ids s Hne Hs) as [Ho Ht _ _].
  destruct (reachable_passed_prefix ids s Hne Hnd Hs) as [Hu _ _].
  rewrite Hu, elem_of_list_to_set.
  apply target_not_passed; [by rewrite Ho|by apply Ht].
Qed.

(** Over a non-empty list of distinct ids the target of a playing state is
    an id of the list that is neither completed nor skipped, so a click on it
    is never swallowed by the already-completed test: it is the correct
    click. *)
Theorem target_click_is_correct (ids : list string) (s : GameState)
    (now : Z) :
  ids ≠ [] -> NoDup ids -> reachable ids s -> status s = playing ->
  currentTargetId s ∈ ids /\
  (currentTargetId s ∉ completed s) /\
  (currentTargetId s ∉ skipped s) /\
  handleCountryClick now (currentTargetId s) s
  = correct_click (currentTargetId s) s.
Proof.
  intros Hne Hnd Hs Hp.
  pose proof (target_is_fresh ids s Hne Hnd Hs Hp) as Hfresh.
  apply not_elem_of_union in Hfresh as [Hc Hk].
  split; [by apply playing_target_known|].
  split; [done|]. split; [done|]. by apply click_correct.
Qed.

Lemma target_click_is_correct_witness :
  currentTargetId two_after_wrong ∈ ["4"; "8"] /\
  (currentTargetId two_after_wrong ∉ completed two_after_wrong) /\
  (currentTargetId two_after_wrong ∉ skipped two_after_wrong) /\
  handleCountryClick 8 (currentTargetId two_after_wrong) two_after_wrong
  = correct_click (currentTargetId two_after_wrong) two_after_wrong.
Proof.
  apply (target_click_is_correct ["4"; "8"] two_after_wrong 8).
  - discriminate.
  - apply (bool_decide_unpack _). vm_compute. exact I.
  - apply reach_click, reach_init.
  - reflexivity.
Defined.

(** With a repeated id the target can already be completed, and then a click
    on it is ignored: only a skip moves on. *)
Example repeated_id_target_stuck :
  handleCountryClick 2 "a"
    (handleCountryClick 1 "a" (createInitialState Random.zero ["a"; "a"]))
  = handleCountryClick 1 "a" (createInitialState Random.zero ["a"; "a"]) /\
  status (handleCountryClick 1 "a"
            (createInitialState Random.zero ["a"; "a"])) = playing.
Proof. by vm_compute. Qed.

(** ** Clicks on a skipped country *)

(** Over a non-empty list of distinct ids a click on a skipped country, while
    the session is playing, is a wrong click: skipped countries are not
    protected the way completed ones are. *)
Theorem click_on_skipped_is_wrong (ids : list string) (s : GameState)
    (now : Z) (x : string) :
  ids ≠ [] -> NoDup ids -> reachable ids s -> status s = playing ->
  x ∈ skipped s ->
  handleCountryClick now x s = wrong_click now x s.
Proof.
  intros Hne Hnd Hs Hp Hx.
  destruct (reachable_passed_prefix ids s Hne Hnd Hs) as [_ Hd _].
  pose proof (target_is_fresh ids s Hne Hnd Hs Hp) as Hfresh.
  apply click_wrong; [done| |].
  - intros Hc. by apply (Hd x).
  - intros ->. apply Hfresh. by apply elem_of_union_r.
Qed.

(** The three-country session after a skip of its first target. *)
Example three_after_skip_state :
  let s := skipCountry (createInitialState Random.zero ["a"; "b"; "c"]) in
  countryOrder s = ["b"; "c"; "a"] /\ skipped s = {["b"]} /\
  currentTargetId s = "c" /\ status s = playing.
Proof. by vm_compute. Qed.

Lemma click_on_skipped_is_wrong_witness :
  handleCountryClick 5 "b"
    (skipCountry (createInitialState Random.zero ["a"; "b"; "c"]))
  = wrong_click 5 "b"
      (skipCountry (createInitialState Random.zero ["a"; "b"; "c"])).
Proof.
  apply (click_on_skipped_is_wrong ["a"; "b"; "c"]).
  - discriminate.
  - apply (bool_decide_unpack _). vm_compute. exact I.
  - apply reach_skip, reach_init.
  - reflexivity.
  - apply elem_of_union_l, elem_of_singleton. reflexivity.
Defined.

(** ** Ending a session *)

Lemma skips_finish (ids : list string) (k : nat) (s : GameState) :
  coherent ids s ->
  length (countryOrder s) - currentIndex s <= k ->
  status (run (skips k) s) = finished /\
  completed (run (skips k) s) = completed s /\
  wrongClicks (run (skips k) s) = wrongClicks s.
Proof.
  revert s. induction k as [|k IH]; intros s Hcoh Hk.
  - split; [|done]. simpl.
    destruct (status_cases s) as [Hp|Hf]; [|done].
    apply (coh_playing _ _ Hcoh), lookup_lt_Some in Hp. lia.
  - change (skips (S k)) with (SkipTarget :: skips k). rewrite run_cons.
    simpl. destruct (status_cases s) as [Hp|Hf].
    + rewrite skip_playing by done.
      destruct (IH (skip_target s)) as (H1 & H2 & H3).
      * eapply coherent_advance; try done. simpl. auto.
      * simpl. lia.
      * done.
    + rewrite skip_finished by done. apply IH; [done|].
      apply (coh_finished _ _ Hcoh) in Hf. lia.
Qed.

(** Over a non-empty id list, skipping as many times as ids are left after
    the cursor ends the session, and changes neither completed nor the
    wrong-click count. *)
Theorem skipping_ends_the_game (ids : list string) (s : GameState) :
  ids ≠ [] -> reachable ids s ->
  let s' := run (skips (length ids - currentIndex s)) s in
  status s' = finished /\
  completed s' = completed s /\
  wrongClicks s' = wrongClicks s.
Proof.
  intros Hne Hs. simpl.
  pose proof (reachable_coherent ids s Hne Hs) as Hcoh.
  apply (skips_finish ids); [done|].
  by rewrite (Permutation_length (coh_order _ _ Hcoh)).
Qed.

Lemma skipping_ends_the_game_witness :
  status (run (skips (length ["4"; "8"] - currentIndex two_after_wrong))
            two_after_wrong) = finished /\
  completed (run (skips (length ["4"; "8"] - currentIndex two_after_wrong))
               two_after_wrong) = completed two_after_wrong /\
  wrongClicks (run (skips (length ["4"; "8"] - currentIndex two_after_wrong))
                 two_after_wrong) = wrongClicks two_after_wrong.
Proof.
  apply (skipping_ends_the_game ["4"; "8"] two_after_wrong).
  - discriminate.
  - apply reach_click, reach_init.
Defined.

Lemma clicks_finish (ids : list string) (now : Z) (n : nat) (s : GameState) :
  NoDup ids -> coherent ids s -> passed_prefix s ->
  length (countryOrder s) - currentIndex s = n ->
  let rest := drop (currentIndex s) (countryOrder s) in
  status (run (clicks now rest) s) = finished /\
  completed (run (clicks now rest) s) = completed s ∪ list_to_set rest /\
  skipped (run (clicks now rest) s) = skipped s /\
  wrongClicks (run (clicks now rest) s) = wrongClicks s.
Proof.
  intros Hnd. revert s. induction n as [|n IH]; intros s Hcoh Hpp Hn; simpl.
  - rewrite drop_ge by lia. simpl. rewrite union_empty_r_L.
    split; [|done].
    destruct (status_cases s) as [Hp|Hf]; [|done].
    apply (coh_playing _ _ Hcoh), lookup_lt_Some in Hp. lia.
  - assert (status s = playing) as Hp.
    { destruct (status_cases s) as [Hp|Hf]; [done|].
      apply (coh_finished _ _ Hcoh) in Hf. lia. }
    pose proof (coh_playing _ _ Hcoh Hp) as Ht.
    assert (currentTargetId s ∉ completed s) as Hfresh.
    { intros Hin.
      assert (NoDup (countryOrder s)) as Hnd'
        by by rewrite (coh_order _ _ Hcoh).
      apply (target_not_passed _ _ _ Hnd' Ht).
      assert (currentTargetId s ∈ completed s ∪ skipped s) as Hu
        by by apply elem_of_union_l.
      rewrite (pp_union _ Hpp) in Hu. by apply elem_of_list_to_set in Hu. }
    rewrite (drop_S _ _ _ Ht). unfold clicks. rewrite fmap_cons, run_cons.
    simpl. rewrite click_correct by done.
    destruct (IH (correct_click (currentTargetId s) s)) as (H1 & H2 & H3 & H4).
    + eapply coherent_advance; try done. simpl.
      intros x [->%elem_of_singleton|?]%elem_of_union; auto.
    + by eapply passed_prefix_correct.
    + simpl. lia.
    + simpl in *. rewrite Nat.add_1_r in *. unfold clicks in *.
      split; [done|]. split; [|done].
      rewrite H2. set_solver.
Qed.

(** Over a non-empty list of distinct ids, clicking the ids that are left in
    the play order, in that order, ends the session from any reachable state:
    exactly those ids are added to completed, nothing is skipped and no
    wrong click is counted. *)
Theorem finish_by_clicking (ids : list string) (s : GameState) (now : Z) :
  ids ≠ [] -> NoDup ids -> reachable ids s ->
  let rest := drop (currentIndex s) (countryOrder s) in
  status (run (clicks now rest) s) = finished /\
  completed (run (clicks now rest) s) = completed s ∪ list_to_set rest /\
  skipped (run (clicks now rest) s) = skipped s /\
  wrongClicks (run (clicks now rest) s) = wrongClicks s.
Proof.
  intros Hne Hnd Hs.
  apply (clicks_finish ids now
           (length (countryOrder s) - currentIndex s)); [done| | |done].
  - by apply reachable_coherent.
  - by apply (reachable_passed_prefix ids).
Qed.

Lemma finish_by_clicking_witness :
  status (run (clicks 9 (drop (currentIndex two_after_wrong)
                           (countryOrder two_after_wrong)))
            two_after_wrong) = finished /\
  wrongClicks (run (clicks 9 (drop (currentIndex two_after_wrong)
                                (countryOrder two_after_wrong)))
                 two_after_wrong) = wrongClicks two_after_wrong.
Proof.
  destruct (finish_by_clicking ["4"; "8"] two_after_wrong 9)
    as (Hf & _ & _ & Hw).
  - discriminate.
  - apply (bool_decide_unpack _). vm_compute. exact I.
  - apply reach_click, reach_init.
  - split; [exact Hf|exact Hw].
Defined.

(** The perfect game: over a non-empty list of distinct ids, clicking the
    play order of a fresh session from its first id to its last ends the
    session with every id completed, none skipped and no wrong click. *)
Theorem perfect_game (random : nat -> Random.draw) (ids : list string)
    (now : Z) :
  ids ≠ [] -> NoDup ids ->
  let start := createInitialState random ids in
  let s := run (clicks now (countryOrder start)) start in
  status s = finished /\
  completed s = list_to_set ids /\
  skipped s = ∅ /\
  wrongClicks s = 0.
Proof.
  intros Hne Hnd start.
  destruct (clicks_finish ids now (length (countryOrder start) - 0)
              start Hnd)
    as (H1 & H2 & H3 & H4);
    [by apply coherent_init|apply passed_prefix_init|done|].
  change (drop (currentIndex start) (countryOrder start))
    with (countryOrder start) in *.
  change (completed start) with (∅ : gset string) in H2.
  change (skipped start) with (∅ : gset string) in H3.
  change (wrongClicks start) with 0 in H4.
  cbv zeta. split; [done|]. split; [|done].
  rewrite H2, union_empty_l_L.
  apply list_to_set_perm_L, shuffleArray_Permutation.
Qed.

Lemma perfect_game_witness :
  status (run (clicks 3 (countryOrder four_start)) four_start) = finished /\
  completed (run (clicks 3 (countryOrder four_start)) four_start)
  = list_to_set ["a"; "b"; "c"; "d"] /\
  skipped (run (clicks 3 (countryOrder four_start)) four_start) = ∅ /\
  wrongClicks (run (clicks 3 (countryOrder four_start)) four_start) = 0.
Proof.
  apply (perfect_game Random.mixed ["a"; "b"; "c"; "d"] 3).
  - discriminate.
  - apply (bool_decide_unpack _). vm_compute. exact I.
Defined.

(** Over a non-empty list of distinct ids a finished session has dealt with
    every id: each is either completed or skipped, never both, and the two
    sets together count as many ids as the list has. *)
Theorem finished_covers_catalog (ids : list string) (s : GameState) :
  ids ≠ [] -> NoDup ids -> reachable ids s -> status s = finished ->
  completed s ∪ skipped s = list_to_set ids /\
  completed s ## skipped s /\
  completedCount s = length ids.
Proof.
  intros Hne Hnd Hs Hf.
  destruct (reachable_coherent ids s Hne Hs) as [Ho _ Hend _].
  destruct (reachable_passed_prefix ids s Hne Hnd Hs) as [Hu Hd Hsz].
  specialize (Hend Hf). split; [|split; [done|]].
  - rewrite Hu, Hend, firstn_all. by apply list_to_set_perm_L.
  - unfold completedCount. rewrite Hsz, Hend. by apply Permutation_length.
Qed.

Lemma finished_covers_catalog_witness :
  completed two_skipped_end ∪ skipped two_skipped_end
  = list_to_set ["4"; "8"] /\
  completed two_skipped_end ## skipped two_skipped_end /\
  completedCount two_skipped_end = length ["4"; "8"].
Proof.
  apply (finished_covers_catalog ["4"; "8"] two_skipped_end).
  - discriminate.
  - apply (bool_decide_unpack _). vm_compute. exact I.
  - apply reach_skip, reach_click, reach_init.
  - reflexivity.
Defined.

(** ** The last wrong id *)

(** In every reachable state, over any id list, a last wrong id is only
    present while the session is playing, and it is neither a completed id
    nor the current target; a finished state has none and its target is the
    empty string. *)
Theorem last_wrong_invariant (ids : list string) (s : GameState) :
  reachable ids s ->
  (forall x, lastWrongId s = Some x ->
             status s = playing /\ (x ∉ completed s) /\
             x ≠ currentTargetId s) /\
  (status s = finished -> lastWrongId s = None /\ currentTargetId s = "").
Proof.
  revert s.
  apply (reachable_ind_full ids
           (fun s =>
              (forall x, lastWrongId s = Some x ->
                         status s = playing /\ (x ∉ completed s) /\
                         x ≠ currentTargetId s) /\
              (status s = finished ->
               lastWrongId s = None /\ currentTargetId s = ""))).
  - intros random. split; simpl; [intros x [=]|intros [=]].
  - intros s _ _ _ _. split; simpl; [intros x [=]|].
    intros Hb%status_of_finished. by rewrite Hb.
  - intros s now countryId _ _ Hp Hc Ht. split; simpl.
    + by intros x [= <-].
    + congruence.
  - intros s _ _ _. split; simpl; [intros x [=]|].
    intros Hb%status_of_finished. by rewrite Hb.
Qed.

Lemma last_wrong_invariant_witness :
  (forall x, lastWrongId two_after_wrong = Some x ->
             status two_after_wrong = playing /\
             (x ∉ completed two_after_wrong) /\
             x ≠ currentTargetId two_after_wrong) /\
  (status two_after_wrong = finished ->
   lastWrongId two_after_wrong = None /\
   currentTargetId two_after_wrong = "").
Proof.
  apply (last_wrong_invariant ["4"; "8"] two_after_wrong).
  apply reach_click, reach_init.
Defined.

(** ** Looking a country up by its id *)

Lemma countryMap_snoc (catalog : list Country) (c : Country) :
  countryMap (catalog ++ [c]) = <[id c := c]> (countryMap catalog).
Proof. unfold countryMap. by rewrite foldl_app. Qed.

Lemma countryMap_lookup (catalog : list Country) (x : string) :
  countryMap catalog !! x = last (filter (fun c => id c = x) catalog).
Proof.
  induction catalog as [|c catalog IH] using rev_ind; [done|].
  rewrite countryMap_snoc, filter_app, filter_cons, filter_nil.
  destruct (decide (id c = x)) as [<-|Hne].
  - by rewrite lookup_insert_eq, last_snoc.
  - by rewrite lookup_insert_ne, app_nil_r.
Qed.

(** [getCountryById] yields the last country of the catalog that carries the
    id: a later entry with the same id replaces an earlier one, and an id
    that no country carries yields nothing. *)
Theorem getCountryById_last (catalog : list Country) (x : string) :
  getCountryById catalog x = last (filter (fun c => id c = x) catalog).
Proof. apply countryMap_lookup. Qed.

Lemma getCountryById_elem (catalog : list Country) (x : string)
    (c : Country) :
  getCountryById catalog x = Some c -> c ∈ catalog /\ id c = x.
Proof.
  unfold getCountryById. rewrite countryMap_lookup.
  intros H%last_Some_elem_of.
  apply list_elem_of_filter in H. tauto.
Qed.

Lemma getCountryById_unknown (catalog : list Country) (x : string) :
  x ∉ countryIds catalog -> getCountryById catalog x = None.
Proof.
  intros Hout. destruct (getCountryById catalog x) as [c|] eqn:E; [|done].
  apply getCountryById_elem in E as [Hc <-].
  exfalso. apply Hout. unfold countryIds. by apply list_elem_of_fmap_2.
Qed.

(** An id is unknown to [getCountryById] exactly when no country of the
    catalog carries it. *)
Theorem getCountryById_missing (catalog : list Country) (x : string) :
  getCountryById catalog x = None <-> x ∉ countryIds catalog.
Proof.
  split; [|apply getCountryById_unknown].
  intros Hnone Hin.
  destruct (getCountryById_known catalog x Hin) as (c & Hc & _).
  congruence.
Qed.

(** When the ids of the catalog are distinct, looking up the id of a country
    of the catalog gives back that country. *)
Theorem getCountryById_round_trip (catalog : list Country) (c : Country) :
  NoDup (countryIds catalog) -> c ∈ catalog ->
  getCountryById catalog (id c) = Some c.
Proof.
  intros Hnd Hc.
  destruct (getCountryById_known catalog (id c)) as (c' & Hc' & Hid).
  { unfold countryIds. by apply list_elem_of_fmap_2. }
  rewrite Hc'. f_equal.
  apply getCountryById_elem in Hc' as [Hin _].
  apply list_elem_of_lookup in Hin as [i Hi].
  apply list_elem_of_lookup in Hc as [j Hj].
  assert (i = j) as ->.
  { apply (NoDup_lookup _ _ _ (id c) Hnd); unfold countryIds;
      rewrite list_lookup_fmap; [rewrite Hi|rewrite Hj]; simpl; congruence. }
  congruence.
Qed.

Lemma getCountryById_round_trip_witness :
  getCountryById two_countries (id (mkCountry "8" "Beta"))
  = Some (mkCountry "8" "Beta").
Proof.
  apply (getCountryById_round_trip two_countries (mkCountry "8" "Beta")).
  - apply (bool_decide_unpack _). vm_compute. exact I.
  - apply list_elem_of_further, list_elem_of_here.
Defined.

(** With a repeated id the later country wins. *)
Example repeated_id_lookup :
  getCountryById [mkCountry "4" "Alpha"; mkCountry "4" "Aleph"] "4"
  = Some (mkCountry "4" "Aleph").
Proof. by vm_compute. Qed.

(** ** The current target as a country *)

Lemma finished_target_empty (ids : list string) (s : GameState) :
  reachable ids s -> status s = finished -> currentTargetId s = "".
Proof.
  revert s.
  apply (reachable_ind_full ids
           (fun s => status s = finished -> currentTargetId s = "")).
  - intros random [=].
  - intros s _ _ _ _. simpl. intros Hb%status_of_finished. by rewrite Hb.
  - intros s now countryId _ _ Hp _ _. simpl. congruence.
  - intros s _ _ _. simpl. intros Hb%status_of_finished. by rewrite Hb.
Qed.

(** Over a non-empty catalog the current target of a playing state is a
    country of the catalog, the one whose id is at the cursor of the play
    order, so the header always has a name to show; a finished state has no
    current target unless the catalog holds a country with the empty id. *)
Theorem currentTarget_defined (catalog : list Country) (s : GameState) :
  catalog ≠ [] -> reachable (countryIds catalog) s ->
  (status s = playing ->
   exists c, currentTarget catalog s = Some c /\ c ∈ catalog /\
             countryOrder s !! currentIndex s = Some (id c)) /\
  (status s = finished -> "" ∉ countryIds catalog ->
   currentTarget catalog s = None).
Proof.
  intros Hne Hs.
  assert (countryIds catalog ≠ []) as Hne' by by destruct catalog.
  split.
  - intros Hp.
    destruct (getCountryById_known catalog (currentTargetId s))
      as (c & Hc & Hid); [by apply playing_target_known|].
    exists c. split; [done|].
    split; [by apply getCountryById_elem in Hc as [? _]|].
    rewrite Hid. by apply (reachable_coherent _ s Hne' Hs).
  - intros Hf Hout. unfold currentTarget.
    rewrite (finished_target_empty _ s Hs Hf).
    by apply getCountryById_unknown.
Qed.

Lemma currentTarget_defined_witness :
  (status two_after_wrong = playing ->
   exists c, currentTarget two_countries two_after_wrong = Some c /\
             c ∈ two_countries /\
             countryOrder two_after_wrong !! currentIndex two_after_wrong
             = Some (id c)) /\
  (status two_after_wrong = finished -> "" ∉ countryIds two_countries ->
   currentTarget two_countries two_after_wrong = None).
Proof.
  apply (currentTarget_defined two_countries two_after_wrong).
  - discriminate.
  - apply reach_click, (reach_init ["4"; "8"] Random.zero).
Defined.

(** ** The reset when the catalog arrives *)

Lemma resetOnLoad_fresh random ids s :
  ids ≠ [] -> countryOrder s = [] ->
  resetOnLoad random ids s = createInitialState random ids.
Proof.
  intros Hne Ho. unfold resetOnLoad. rewrite Ho.
  by destruct ids.
Qed.

Lemma resetOnLoad_kept random ids s :
  ids = [] \/ countryOrder s ≠ [] -> resetOnLoad random ids s = s.
Proof.
  intros [->|Ho]; unfold resetOnLoad; [done|].
  destruct (countryOrder s); [done|]. simpl. by rewrite andb_false_r.
Qed.

(** Running the reset-on-load memo a second time, with whatever the random
    source then yields, does not change the state again: the memo cannot
    keep resetting the session. *)
Theorem resetOnLoad_stable (random random' : nat -> Random.draw)
    (ids : list string) (s : GameState) :
  resetOnLoad random' ids (resetOnLoad random ids s)
  = resetOnLoad random ids s.
Proof.
  destruct (decide (ids = [])) as [->|Hne]; [done|].
  destruct (decide (countryOrder s = [])) as [Ho|Ho].
  - rewrite (resetOnLoad_fresh random) by done.
    apply resetOnLoad_kept. right. simpl. intros E.
    apply (f_equal length) in E. rewrite shuffleArray_length in E.
    by destruct ids.
  - rewrite (resetOnLoad_kept random) by auto.
    apply resetOnLoad_kept. auto.
Qed.

(** Whatever was clicked or skipped while the data was still [null], once
    data with at least one feature has arrived the memo starts a fresh
    session over the ids of the features. *)
Theorem load_starts_afresh (G : Type) (data : CountriesData G)
    (random : nat -> Random.draw) (s : GameState) :
  features data ≠ [] ->
  reachable (countryIds (countries (@None (CountriesData G)))) s ->
  resetOnLoad random (countryIds (countries (Some data))) s
  = createInitialState random (feature_id <$> features data).
Proof.
  intros Hne Hs. simpl in Hs.
  destruct (reachable_empty_session s Hs) as [Ho _].
  assert (countryIds (countries (Some data)) = feature_id <$> features data)
    as ->.
  { unfold countryIds, countries. rewrite <- list_fmap_compose.
    by apply list_fmap_ext. }
  apply resetOnLoad_fresh; [|done]. by destruct (features data).
Qed.

(** Two features, with a geometry that is not looked at. *)
Example two_features_countries :
  countries
    (Some (mkCountriesData
             [mkCountryFeature "4" (mkFeatureProperties "Alpha" "4") tt;
              mkCountryFeature "8" (mkFeatureProperties "Beta" "8") tt]))
  = two_countries.
Proof. reflexivity. Qed.

Lemma load_starts_afresh_witness :
  resetOnLoad Random.zero
    (countryIds
       (countries
          (Some (mkCountriesData
                   [mkCountryFeature "4" (mkFeatureProperties "Alpha" "4") tt;
                    mkCountryFeature "8" (mkFeatureProperties "Beta" "8")
                      tt]))))
    empty_skipped
  = createInitialState Random.zero
      (feature_id
         <$> features
               (mkCountriesData
                  [mkCountryFeature "4" (mkFeatureProperties "Alpha" "4") tt;
                   mkCountryFeature "8" (mkFeatureProperties "Beta" "8")
                     tt])).
Proof.
  apply (load_starts_afresh unit).
  - discriminate.
  - apply reach_skip, (reach_init [] Random.zero).
Defined.

(** A session over a non-empty id list is never replaced by the memo,
    whatever ids the catalog then has. *)
Theorem session_survives_rerender (random : nat -> Random.draw)
    (ids ids' : list string) (s : GameState) :
  ids ≠ [] -> reachable ids s -> resetOnLoad random ids' s = s.
Proof.
  intros Hne Hs. apply resetOnLoad_kept. right. intros Ho.
  destruct (reachable_coherent ids s Hne Hs) as [Hperm _ _ _].
  rewrite Ho in Hperm. apply Permutation_nil_l in Hperm. done.
Qed.

Lemma session_survives_rerender_witness :
  resetOnLoad Random.mixed ["4"; "8"; "12"] two_after_wrong
  = two_after_wrong.
Proof.
  apply (session_survives_rerender Random.mixed ["4"; "8"]).
  - discriminate.
  - apply reach_click, reach_init.
Defined.

(** ** The progress shown by the header and the sidebar *)

(** Over a non-empty catalog with distinct ids the progress count of the
    header never exceeds the total, equals the total exactly when the
    session is finished, and is the number of entries the sidebar lists. *)
Theorem progress_counts (catalog : list Country) (s : GameState) :
  catalog ≠ [] -> NoDup (countryIds catalog) ->
  reachable (countryIds catalog) s ->
  completedCount s <= totalCount catalog /\
  (completedCount s = totalCount catalog <-> status s = finished) /\
  length (completedCountries (getCountryById catalog) s) = completedCount s.
Proof.
  intros Hne Hnd Hs.
  assert (countryIds catalog ≠ []) as Hne' by by destruct catalog.
  destruct (reachable_passed_prefix _ s Hne' Hnd Hs) as [_ _ Hsz].
  destruct (reachable_coherent _ s Hne' Hs) as [Ho Hp Hf _].
  assert (length (countryOrder s) = totalCount catalog) as Hlen.
  { rewrite (Permutation_length Ho). unfold countryIds, totalCount.
    apply length_fmap. }
  unfold completedCount. rewrite Hsz, <- Hlen.
  assert (currentIndex s <= length (countryOrder s)) as Hle.
  { destruct (status_cases s) as [Hst|Hst].
    - apply Hp, lookup_lt_Some in Hst. lia.
    - apply Hf in Hst. lia. }
  split; [done|]. split.
  - split; [|apply Hf]. intros Hend.
    destruct (status_cases s) as [Hst|Hst]; [|done].
    apply Hp, lookup_lt_Some in Hst. lia.
  - rewrite completedCountries_eq.
    rewrite <- (length_fmap entry_id), history_ids_prefix; [|
      intros x Hx; apply getCountryById_known; by rewrite <- Ho|done].
    rewrite length_take. lia.
Qed.

Lemma progress_counts_witness :
  completedCount two_skipped_end <= totalCount two_countries /\
  (completedCount two_skipped_end = totalCount two_countries <->
   status two_skipped_end = finished) /\
  length (completedCountries (getCountryById two_countries) two_skipped_end)
  = completedCount two_skipped_end.
Proof.
  apply (progress_counts two_countries two_skipped_end).
  - discriminate.
  - apply (bool_decide_unpack _). vm_compute. exact I.
  - apply reach_skip, reach_click, (reach_init ["4"; "8"] Random.zero).
Defined.

(** Over a non-empty list of distinct ids, the sidebar of a finished session
    shows the perfect score exactly when every id was completed without a
    single wrong click. *)
Theorem perfect_score_shown (ids : list string) (s : GameState) :
  ids ≠ [] -> NoDup ids -> reachable ids s -> status s = finished ->
  perfectScore (wrongClicks s) (skippedCount s) = true <->
  wrongClicks s = 0 /\ completed s = list_to_set ids.
Proof.
  intros Hne Hnd Hs Hf.
  destruct (reachable_coherent ids s Hne Hs) as [Ho _ Hend _].
  destruct (reachable_passed_prefix ids s Hne Hnd Hs) as [Hu Hd _].
  rewrite (Hend Hf), firstn_all, (list_to_set_perm_L _ _ Ho) in Hu.
  unfold perfectScore, skippedCount.
  rewrite andb_true_iff, !Nat.eqb_eq, size_empty_iff.
  split; intros [Hw Hk]; (split; [done|]).
  - rewrite <- Hu. set_solver.
  - rewrite <- Hk in Hu. set_solver.
Qed.

Lemma perfect_score_shown_witness :
  perfectScore (wrongClicks two_finished) (skippedCount two_finished) = true
  <-> wrongClicks two_finished = 0 /\
      completed two_finished = list_to_set ["4"; "8"].
Proof.
  apply (perfect_score_shown ["4"; "8"] two_finished).
  - discriminate.
  - apply (bool_decide_unpack _). vm_compute. exact I.
  - apply reach_click, reach_click, reach_init.
  - reflexivity.
Defined.

(** ** The style of a country on the map *)

(** Over a non-empty list of distinct ids, whatever id is being animated, a
    country is drawn as completed exactly when its id is completed, as
    skipped exactly when its id is skipped, and as wrong only when it is the
    animated id and neither completed nor skipped. *)
Theorem map_style (ids : list string) (s : GameState)
    (animatingWrongId : option string) (x : string) :
  ids ≠ [] -> NoDup ids -> reachable ids s ->
  (className (completed s) (skipped s) animatingWrongId x
   = "country country--completed" <-> x ∈ completed s) /\
  (className (completed s) (skipped s) animatingWrongId x
   = "country country--skipped" <-> x ∈ skipped s) /\
  (className (completed s) (skipped s) animatingWrongId x
   = "country country--wrong" <->
   animatingWrongId = Some x /\ x ∉ completed s ∪ skipped s).
Proof.
  intros Hne Hnd Hs.
  destruct (reachable_passed_prefix ids s Hne Hnd Hs) as [_ Hd _].
  specialize (Hd x). unfold className.
  destruct (decide (x ∈ completed s)) as [Hc|Hc];
    [rewrite (bool_decide_eq_true_2 _ Hc)
    |rewrite (bool_decide_eq_false_2 _ Hc)];
    (destruct (decide (x ∈ skipped s)) as [Hk|Hk];
     [rewrite ?(bool_decide_eq_true_2 _ Hk)
     |rewrite ?(bool_decide_eq_false_2 _ Hk)]);
    (destruct (decide (animatingWrongId = Some x)) as [Ha|Ha];
     [rewrite ?(bool_decide_eq_true_2 _ Ha)
     |rewrite ?(bool_decide_eq_false_2 _ Ha)]);
    simpl; rewrite not_elem_of_union;
    (repeat split; try done; try tauto; try discriminate).
Qed.

Lemma map_style_witness :
  (className (completed two_skipped_end) (skipped two_skipped_end)
     (Some "4") "4"
   = "country country--completed" <-> "4" ∈ completed two_skipped_end) /\
  (className (completed two_skipped_end) (skipped two_skipped_end)
     (Some "4") "4"
   = "country country--skipped" <-> "4" ∈ skipped two_skipped_end) /\
  (className (completed two_skipped_end) (skipped two_skipped_end)
     (Some "4") "4"
   = "country country--wrong" <->
   Some "4" = Some "4" /\
   "4" ∉ completed two_skipped_end ∪ skipped two_skipped_end).
Proof.
  apply (map_style ["4"; "8"] two_skipped_end (Some "4") "4").
  - discriminate.
  - apply (bool_decide_unpack _). vm_compute. exact I.
  - apply reach_skip, reach_click, reach_init.
Defined.

Example skipped_country_style :
  className (completed two_skipped_end) (skipped two_skipped_end)
    (Some "4") "4"
  = "country country--skipped".
Proof. by vm_compute. Qed.

(** ** Every order can come out of the shuffle *)

Lemma floor_mul_exact (j n : nat) :
  j < n -> Random.floor_mul (Random.Draw j (n - j - 1)) n = j.
Proof.
  intros Hj. unfold Random.floor_mul, Random.den. simpl.
  replace (j + (n - j - 1) + 1) with n by lia.
  apply Nat.div_mul. lia.
Qed.

Section ShuffleReach.
Context {T : Type}.
Implicit Types (a p : list T) (random : nat -> Random.draw).

Lemma swap_length a i j : length (swap a i j) = length a.
Proof.
  unfold swap. destruct (a !! j), (a !! i); try done.
  by rewrite !length_insert.
Qed.

Lemma swap_app_l a tail i j :
  i < length a -> j < length a ->
  swap (a ++ tail) i j = swap a i j ++ tail.
Proof.
  intros Hi Hj. unfold swap.
  rewrite !lookup_app_l by done.
  destruct (lookup_lt_is_Some_2 a j Hj) as [aj ->].
  destruct (lookup_lt_is_Some_2 a i Hi) as [ai ->].
  rewrite insert_app_l by done.
  rewrite insert_app_l by (by rewrite length_insert). done.
Qed.

(** The loop entered at [i] leaves everything after position [i] alone. *)
Lemma shuffle_loop_frame random calls i a tail :
  i < length a ->
  shuffle_loop random calls i (a ++ tail)
  = shuffle_loop random calls i a ++ tail.
Proof.
  revert calls a. induction i as [|i IH]; intros calls a Hi; [done|].
  pose proof (shuffle_index_in_range (random calls) (S i)) as Hj.
  simpl in Hj |- *. rewrite swap_app_l by lia.
  apply IH. rewrite swap_length. lia.
Qed.

(** The loop only looks at the draws from its call count on. *)
Lemma shuffle_loop_shift random calls i a :
  shuffle_loop (fun n => random (S n)) calls i a
  = shuffle_loop random (S calls) i a.
Proof.
  revert calls a. induction i as [|i IH]; intros calls a; [done|].
  simpl. apply IH.
Qed.

Lemma swap_last a i j x :
  S i = length a -> a !! j = Some x ->
  swap a i j = take i (swap a i j) ++ [x].
Proof.
  intros Hi Hj.
  destruct (lookup_lt_is_Some_2 a i) as [y Hy]; [lia|].
  assert (swap a i j !! i = Some x) as Hx.
  { rewrite (swap_defined a i j y x) by done.
    destruct (decide (j = i)) as [->|Hne].
    - rewrite list_lookup_insert_eq by (rewrite length_insert; lia).
      congruence.
    - rewrite list_lookup_insert_ne by done.
      apply list_lookup_insert_eq. lia. }
  rewrite <- (take_drop_middle _ _ _ Hx) at 1.
  f_equal. f_equal. apply drop_ge. rewrite swap_length. lia.
Qed.

Lemma shuffle_loop_reaches (n : nat) a p :
  length a = n -> p ≡ₚ a ->
  exists random, shuffle_loop random 0 (n - 1) a = p.
Proof.
  revert a p. induction n as [|n IH]; intros a p Hlen Hperm.
  - destruct a; [|done]. apply Permutation_nil_r in Hperm as ->.
    by exists Random.zero.
  - destruct n as [|m].
    + destruct a as [|x [|? ?]]; try done.
      apply Permutation_singleton_r in Hperm as ->. by exists Random.zero.
    + destruct p as [|x p _] using rev_ind.
      { apply Permutation_nil_l in Hperm. by subst. }
      assert (x ∈ a) as Hx.
      { rewrite <- Hperm. apply elem_of_app. right.
        by apply list_elem_of_here. }
      apply list_elem_of_lookup in Hx as [j Hj].
      pose proof (lookup_lt_Some _ _ _ Hj) as Hjlt.
      pose proof (swap_last a (S m) j x (eq_sym Hlen) Hj) as Hswap.
      destruct (IH (take (S m) (swap a (S m) j)) p) as [random' Hrandom'].
      { rewrite length_take, swap_length. lia. }
      { apply (Permutation_app_inv_r [x]).
        rewrite <- Hswap, Hperm. symmetry. apply swap_Permutation. }
      exists (fun k => match k with
                       | 0 => Random.Draw j (S (S m) - j - 1)
                       | S k' => random' k'
                       end).
      simpl. replace (S (m + 1)) with (S (S m)) by lia.
      rewrite floor_mul_exact by lia.
      rewrite Hswap, shuffle_loop_frame
        by (rewrite length_take, swap_length; lia).
      rewrite <- shuffle_loop_shift.
      simpl in Hrandom'. rewrite Nat.sub_0_r in Hrandom'.
      f_equal. exact Hrandom'.
Qed.

(** Every rearrangement of an array is what [shuffleArray] returns for some
    outcome of the random draws. *)
Theorem shuffle_reaches_every_order a p :
  p ≡ₚ a -> exists random, shuffleArray random a = p.
Proof. intros Hperm. by apply shuffle_loop_reaches. Qed.

End ShuffleReach.

Lemma shuffle_reaches_every_order_witness :
  exists random, shuffleArray random ["a"; "b"; "c"] = ["c"; "a"; "b"].
Proof.
  apply (shuffle_reaches_every_order ["a"; "b"; "c"] ["c"; "a"; "b"]).
  etrans; [apply perm_swap|]. apply perm_skip, perm_swap.
Defined.

(** ** Wrong clicks in a row *)

(** In a playing state, any series of clicks on ids that are neither
    completed nor the target, the same id repeated or not, adds one wrong
    click each and leaves the id and the time of the last of them as the
    last-wrong marker; completed, skipped, cursor, status and target stay as
    they were. *)
Theorem wrong_clicks_accumulate (s : GameState) (wrongs : list (Z * string)) :
  status s = playing ->
  Forall (fun tx => (tx.2 ∉ completed s) /\ tx.2 ≠ currentTargetId s)
    wrongs ->
  let s' := run ((fun tx => Click tx.1 tx.2) <$> wrongs) s in
  wrongClicks s' = wrongClicks s + length wrongs /\
  (forall t x, last wrongs = Some (t, x) ->
               lastWrongId s' = Some x /\ lastWrongTimestamp s' = t) /\
  completed s' = completed s /\
  skipped s' = skipped s /\
  currentIndex s' = currentIndex s /\
  status s' = playing /\
  currentTargetId s' = currentTargetId s.
Proof.
  intros Hp. induction wrongs as [|[t x] wrongs IH] using rev_ind;
    intros Hall; simpl.
  - repeat split; try done; lia.
  - apply Forall_app in Hall as [Hall Hlast].
    apply Forall_singleton in Hlast as [Hc Ht]. simpl in Hc, Ht.
    destruct (IH Hall) as (Hw & _ & Hcs & Hks & Hi & Hst & Htg).
    rewrite fmap_app, run_app. simpl.
    rewrite click_wrong; [|done|by rewrite Hcs|by rewrite Htg].
    simpl. rewrite length_app. simpl.
    split; [lia|]. split; [|done].
    intros t' x' Hl. rewrite last_snoc in Hl. by simplify_eq.
Qed.

Lemma wrong_clicks_accumulate_witness :
  wrongClicks
    (run ((fun tx => Click tx.1 tx.2) <$> [(10%Z, "4"); (20%Z, "4")])
       two_start)
  = wrongClicks two_start + length [(10%Z, "4"); (20%Z, "4")] /\
  (forall t x, last [(10%Z, "4"); (20%Z, "4")] = Some (t, x) ->
               lastWrongId
                 (run ((fun tx => Click tx.1 tx.2)
                         <$> [(10%Z, "4"); (20%Z, "4")]) two_start) = Some x /\
               lastWrongTimestamp
                 (run ((fun tx => Click tx.1 tx.2)
                         <$> [(10%Z, "4"); (20%Z, "4")]) two_start) = t).
Proof.
  destruct (wrong_clicks_accumulate two_start [(10%Z, "4"); (20%Z, "4")])
    as (Hw & Hl & _).
  - reflexivity.
  - repeat constructor; simpl; try apply not_elem_of_empty; discriminate.
  - split; [exact Hw|exact Hl].
Defined.
